(** * Kaleidoscope front end (lang.cpp): lexer, precedence table, parser

    A shallow embedding of [src/lang.cpp].  The file-scope statics of the
    program ([LastChar], [IdentifierStr], [NumVal], [CurTok],
    [BinopPrecedence]) together with the unread part of standard input and
    what was written to standard error form the explicit [State]; every C++
    function becomes a function on that state.  [int] values (characters,
    token codes, precedences) are integers of [Z]: the program performs no
    arithmetic on them, so no wrap-around can occur. *)

From Stdlib Require Import ZArith List String Ascii Lia Bool.
From stdpp Require Import base option list gmap.

Open Scope Z_scope.

(** ** Characters and the <cctype> classifiers *)

(** [EOF] of <cstdio>. *)
Definition EOF : Z := -1.

(** The [int] value of a character, as [getchar] returns it (an
    [unsigned char] converted to [int]) and as a character literal such as
    ['#'] denotes it. *)
Definition chr (a : ascii) : Z := Z.of_N (N_of_ascii a).

(** Conversion of an [int] to [char], as performed by [IdentifierStr +=
    LastChar], [NumStr += LastChar] and the [BinaryExprAST] constructor: the
    low eight bits are kept. *)
Definition to_char (c : Z) : ascii := ascii_of_N (Z.to_N (c mod 256)).

(** The classifiers of <cctype> in the "C" locale; all of them are false on
    [EOF]. *)
Definition isdigit (c : Z) : bool := (48 <=? c) && (c <=? 57).
Definition isalpha (c : Z) : bool :=
  ((65 <=? c) && (c <=? 90)) || ((97 <=? c) && (c <=? 122)).
Definition isalnum (c : Z) : bool := isalpha c || isdigit c.
Definition isspace (c : Z) : bool := (c =? 32) || ((9 <=? c) && (c <=? 13)).
Definition isascii (c : Z) : bool := (0 <=? c) && (c <=? 127).

(** ** Tokens (enum Token) *)

Definition tok_eof : Z := -1.
Definition tok_def : Z := -2.
Definition tok_extern : Z := -3.
Definition tok_identifier : Z := -4.
Definition tok_number : Z := -5.

(** ** std::map<char,int>::operator[] *)

(** [m[k]] returns the mapped value and, when [k] has no entry, first
    inserts one holding the value-initialised [int], 0. *)
Definition map_subscript (m : gmap Z Z) (k : Z) : Z * gmap Z Z :=
  match m !! k with
  | Some v => (v, m)
  | None => (0, <[k := 0]> m)
  end.

(** ** An instance for closed examples *)

(** The development is parametric in the type of doubles and in [strtod].
    Closed examples need some instance; in this one a number is represented
    by the text it was read from, which [strtod] returns as it is. *)
Definition text_double : Type := string.
Definition text_strtod (NumStr : string) : text_double := NumStr.
Definition text_zero : text_double := "0"%string.

Section Kaleidoscope.

(** [double] and [strtod] belong to the C library, not to the program: they
    are parameters of the development, as is the value [0.0] that the
    zero-initialised static [NumVal] starts with. *)
Variable double : Type.
Variable strtod : string -> double.
Variable double_zero : double.

(** ** The AST *)

#[local] Set Warnings "-register-all".
Inductive ExprAST : Type :=
| NumberExprAST (Val : double)
| VariableExprAST (Name : string)
| BinaryExprAST (Op : ascii) (LHS RHS : ExprAST)
| CallExprAST (Callee : string) (Args : list ExprAST).

(** Number of [BinaryExprAST] nodes on top of the other nodes; used to tell
    a tree from the trees built around it. *)
Fixpoint binary_size (e : ExprAST) : nat :=
  match e with
  | BinaryExprAST _ l r => S (binary_size l + binary_size r)
  | _ => 1%nat
  end.

(** ** Program state *)

Record State : Type := mkState {
  stdin : list ascii;            (* the characters getchar has not yet read *)
  LastChar : Z;                  (* static int LastChar of gettok *)
  IdentifierStr : string;        (* static std::string IdentifierStr *)
  NumVal : double;               (* static double NumVal *)
  CurTok : Z;                    (* static int CurTok *)
  BinopPrecedence : gmap Z Z;    (* static std::map<char,int> BinopPrecedence *)
  stderr : list string           (* what fprintf has written to stderr *)
}.

Definition set_lexer (s : State) (c : Z) (inp : list ascii) : State :=
  mkState inp c (IdentifierStr s) (NumVal s) (CurTok s) (BinopPrecedence s)
    (stderr s).
Definition set_IdentifierStr (s : State) (id : string) : State :=
  mkState (stdin s) (LastChar s) id (NumVal s) (CurTok s) (BinopPrecedence s)
    (stderr s).
Definition set_NumVal (s : State) (v : double) : State :=
  mkState (stdin s) (LastChar s) (IdentifierStr s) v (CurTok s)
    (BinopPrecedence s) (stderr s).
Definition set_CurTok (s : State) (t : Z) : State :=
  mkState (stdin s) (LastChar s) (IdentifierStr s) (NumVal s) t
    (BinopPrecedence s) (stderr s).
Definition set_BinopPrecedence (s : State) (m : gmap Z Z) : State :=
  mkState (stdin s) (LastChar s) (IdentifierStr s) (NumVal s) (CurTok s) m
    (stderr s).
Definition set_stderr (s : State) (e : list string) : State :=
  mkState (stdin s) (LastChar s) (IdentifierStr s) (NumVal s) (CurTok s)
    (BinopPrecedence s) e.

(** The state at program start: [LastChar] is initialised to [' '], the
    other statics are zero-initialised or empty. *)
Definition initial (inp : list ascii) : State :=
  mkState inp (chr " ") EmptyString double_zero 0 ∅ [].

(** ** The lexer *)

(** [getchar()] on the unread input. *)
Definition getchar (inp : list ascii) : Z * list ascii :=
  match inp with
  | [] => (EOF, [])
  | c :: rest => (chr c, rest)
  end.

(** [while (isspace(LastChar)) LastChar = getchar();] *)
Fixpoint skip_whitespace (LastChar : Z) (inp : list ascii) : Z * list ascii :=
  if isspace LastChar then
    match inp with
    | [] => (EOF, [])
    | c :: rest => skip_whitespace (chr c) rest
    end
  else (LastChar, inp).

(** [while (isalnum(LastChar = getchar())) IdentifierStr += LastChar;] *)
Fixpoint read_identifier (IdentifierStr : string) (inp : list ascii)
  : string * Z * list ascii :=
  match inp with
  | [] => (IdentifierStr, EOF, [])
  | c :: rest =>
      if isalnum (chr c)
      then read_identifier (IdentifierStr ++ String (to_char (chr c)) "")%string rest
      else (IdentifierStr, chr c, rest)
  end.

(** [do { NumStr += LastChar; LastChar = getchar(); }
     while (isdigit(LastChar) || LastChar == '.');] *)
Fixpoint read_number (NumStr : string) (LastChar : Z) (inp : list ascii)
  : string * Z * list ascii :=
  let NumStr := (NumStr ++ String (to_char LastChar) "")%string in
  match inp with
  | [] => (NumStr, EOF, [])
  | c :: rest =>
      if isdigit (chr c) || (chr c =? chr ".")
      then read_number NumStr (chr c) rest
      else (NumStr, chr c, rest)
  end.

(** [do LastChar = getchar();
     while (LastChar != EOF && LastChar != '\n' && LastChar != '\r');] *)
Fixpoint skip_comment (inp : list ascii) : Z * list ascii :=
  match inp with
  | [] => (EOF, [])
  | c :: rest =>
      if negb (chr c =? EOF) && negb (chr c =? 10) && negb (chr c =? 13)
      then skip_comment rest
      else (chr c, rest)
  end.

(** The end of [gettok], reached when no identifier, number or comment was
    recognised, and also after a comment that ran into the end of input:
    [if (LastChar == EOF) return tok_eof;] and the return of the unknown
    character. *)
Definition gettok_rest (s : State) : Z * State :=
  if LastChar s =? EOF then (tok_eof, s)
  else
    let ThisChar := LastChar s in
    let '(c, inp) := getchar (stdin s) in
    (ThisChar, set_lexer s c inp).

(** [gettok()].  The only recursion of the C++ function is the call [return
    gettok();] after a comment; [fuel] bounds the number of such calls. *)
Fixpoint gettok_fuel (fuel : nat) (s : State) : option (Z * State) :=
  match fuel with
  | O => None
  | S fuel =>
      let '(c, inp) := skip_whitespace (LastChar s) (stdin s) in
      if isalpha c then
        let '(id, c, inp) := read_identifier (IdentifierStr s) inp in
        let s := set_IdentifierStr (set_lexer s c inp) id in
        if String.eqb id "def" then Some (tok_def, s)
        else if String.eqb id "extern" then Some (tok_extern, s)
        else Some (tok_identifier, s)
      else if isdigit c || (c =? chr ".") then
        let '(NumStr, c, inp) := read_number EmptyString c inp in
        Some (tok_number, set_NumVal (set_lexer s c inp) (strtod NumStr))
      else if c =? chr "#" then
        let '(c, inp) := skip_comment inp in
        if negb (c =? EOF) then gettok_fuel fuel (set_lexer s c inp)
        else Some (gettok_rest (set_lexer s c inp))
      else Some (gettok_rest (set_lexer s c inp))
  end.

(** Every recursive call happens after at least one character was read, so
    one unit of fuel per unread character (and one for the call itself) is
    always enough; see [gettok_total]. *)
Definition gettok (s : State) : option (Z * State) :=
  gettok_fuel (S (length (stdin s))) s.

(** ** The parser *)

(** A computation on the program state.  [None] means that the fuel of a
    recursive function ran out, which is not a behaviour of the program;
    a returned [std::unique_ptr<ExprAST>] is an [option ExprAST], [None]
    being [nullptr]. *)
Definition M (A : Type) : Type := State -> option (A * State).

Definition ret {A} (a : A) : M A := fun s => Some (a, s).
Definition bind {A B} (m : M A) (k : A -> M B) : M B :=
  fun s => match m s with
           | Some (a, s') => k a s'
           | None => None
           end.
Definition out_of_fuel {A} : M A := fun _ => None.
Definition get {A} (f : State -> A) : M A := fun s => Some (f s, s).

Notation "x <- m ;; k" := (bind m (fun x => k))
  (at level 100, m at next level, right associativity, only parsing).
Notation "m ;;; k" := (bind m (fun _ => k))
  (at level 100, right associativity, only parsing).

(** [getNextToken()]: [return CurTok = gettok();] *)
Definition getNextToken : M Z :=
  fun s => match gettok s with
           | Some (t, s') => Some (t, set_CurTok s' t)
           | None => None
           end.

(** [LogError(Str)]: [fprintf(stderr, "Error: %s\n", Str); return nullptr;] *)
Definition error_line (Str : string) : string :=
  ("Error: " ++ Str ++ String "010" "")%string.

Definition LogError (Str : string) : M (option ExprAST) :=
  fun s => Some (None, set_stderr s (stderr s ++ [error_line Str])).

(** [GetTokPrecedence()].  The key of [BinopPrecedence[CurTok]] is [CurTok]
    converted to [char]; behind the [isascii] guard the conversion leaves the
    value unchanged. *)
Definition GetTokPrecedence : M Z :=
  fun s =>
    if negb (isascii (CurTok s)) then Some (-1, s)
    else
      let '(TokPrec, m) := map_subscript (BinopPrecedence s) (CurTok s) in
      let s := set_BinopPrecedence s m in
      if TokPrec <=? 0 then Some (-1, s) else Some (TokPrec, s).

(** [ParseNumberExpr()] *)
Definition ParseNumberExpr : M (option ExprAST) :=
  Result <- get (fun s => NumberExprAST (NumVal s)) ;;
  getNextToken ;;;
  ret (Some Result).

(** The mutually recursive parse functions.  Each takes the fuel that bounds
    the depth of its calls; the two [while (true)] loops ([ParseArgs] is the
    argument loop of [ParseIdentifierExpr], with the vector [Args] collected
    so far) spend one unit per iteration. *)
Fixpoint ParsePrimary (fuel : nat) : M (option ExprAST) :=
  match fuel with
  | O => out_of_fuel
  | S fuel =>
      tok <- get CurTok ;;
      if tok =? tok_identifier then ParseIdentifierExpr fuel
      else if tok =? tok_number then ParseNumberExpr
      else if tok =? chr "(" then ParseParenExpr fuel
      else LogError "Unknown Token! Expected an expression"
  end

with ParseParenExpr (fuel : nat) : M (option ExprAST) :=
  match fuel with
  | O => out_of_fuel
  | S fuel =>
      getNextToken ;;;
      V <- ParseExpression fuel ;;
      match V with
      | None => ret None
      | Some V =>
          tok <- get CurTok ;;
          if negb (tok =? chr ")") then LogError "Expected ')'"
          else getNextToken ;;; ret (Some V)
      end
  end

with ParseIdentifierExpr (fuel : nat) : M (option ExprAST) :=
  match fuel with
  | O => out_of_fuel
  | S fuel =>
      IdName <- get IdentifierStr ;;
      getNextToken ;;;
      tok <- get CurTok ;;
      if negb (tok =? chr "(") then ret (Some (VariableExprAST IdName))
      else
        getNextToken ;;;
        tok <- get CurTok ;;
        Args <- (if negb (tok =? chr ")") then ParseArgs fuel [] else ret (Some [])) ;;
        match Args with
        | None => ret None
        | Some Args =>
            getNextToken ;;;
            ret (Some (CallExprAST IdName Args))
        end
  end

with ParseArgs (fuel : nat) (Args : list ExprAST) : M (option (list ExprAST)) :=
  match fuel with
  | O => out_of_fuel
  | S fuel =>
      Arg <- ParseExpression fuel ;;
      match Arg with
      | None => ret None
      | Some Arg =>
          let Args := Args ++ [Arg] in
          tok <- get CurTok ;;
          if tok =? chr ")" then ret (Some Args)
          else if negb (tok =? chr ",") then
            LogError "Expected ')' or ',' in argument list" ;;; ret None
          else getNextToken ;;; ParseArgs fuel Args
      end
  end

with ParseExpression (fuel : nat) : M (option ExprAST) :=
  match fuel with
  | O => out_of_fuel
  | S fuel =>
      LHS <- ParsePrimary fuel ;;
      match LHS with
      | None => ret None
      | Some LHS => ParseBinOpRHS fuel 0 LHS
      end
  end

with ParseBinOpRHS (fuel : nat) (ExprPrec : Z) (LHS : ExprAST) : M (option ExprAST) :=
  match fuel with
  | O => out_of_fuel
  | S fuel =>
      TokPrec <- GetTokPrecedence ;;
      if TokPrec <? ExprPrec then ret (Some LHS)
      else
        BinOp <- get CurTok ;;
        getNextToken ;;;
        RHS <- ParsePrimary fuel ;;
        match RHS with
        | None => ret None
        | Some RHS =>
            NextPrec <- GetTokPrecedence ;;
            (* if (TokPrec < NextPrec) { /* Unfinished */ } *)
            let RHS := if TokPrec <? NextPrec then RHS else RHS in
            ParseBinOpRHS fuel ExprPrec (BinaryExprAST (to_char BinOp) LHS RHS)
        end
  end.

(** [main()]: the four assignments through [operator[]]. *)
Definition main (s : State) : State :=
  let m := BinopPrecedence s in
  let m := <[chr "<" := 10]> m in
  let m := <[chr "+" := 20]> m in
  let m := <[chr "-" := 30]> m in
  let m := <[chr "*" := 40]> m in
  set_BinopPrecedence s m.

(** The program has no driver: [main] only fills the table.  Every parse
    function expects [CurTok] to hold the first token of what it parses, so
    parsing a text means: start the program on that input, run [main], read
    the first token, call [ParseExpression]. *)
Definition parse_text (fuel : nat) (text : string) : option (option ExprAST * State) :=
  (getNextToken ;;; ParseExpression fuel) (main (initial (list_ascii_of_string text))).


(** ** Vocabulary of the statements *)

(** The characters the lexer still has to classify: the one held in
    [LastChar] and, after it, the unread input.  [with_pending s u] is the
    state [s] with the lexer at the point where exactly [u] is pending; at the
    end of input [LastChar] holds [EOF]. *)
Definition lookahead (u : list ascii) : Z :=
  match u with
  | [] => EOF
  | c :: _ => chr c
  end.

Definition with_pending (s : State) (u : list ascii) : State :=
  set_lexer s (lookahead u) (tail u).

(** Character classes, on characters of the input. *)
Definition space_char (a : ascii) : bool := isspace (chr a).
Definition alpha_char (a : ascii) : bool := isalpha (chr a).
Definition alnum_char (a : ascii) : bool := isalnum (chr a).
Definition number_char (a : ascii) : bool := isdigit (chr a) || (chr a =? chr ".").
Definition line_end (a : ascii) : bool := (chr a =? 10) || (chr a =? 13).

(** The same classes on the look-ahead, which may be [EOF]. *)
Definition number_start (c : Z) : bool := isdigit c || (c =? chr ".").

(** The text of a comment after its ['#']: no newline, no carriage return. *)
Definition comment_body (body : list ascii) : bool :=
  forallb (fun a => negb (line_end a)) body.

(** What may stand between two tokens: white space and comments that run
    up to, and include, a newline or carriage return. *)
Inductive trivia : list ascii -> Prop :=
| trivia_nil : trivia []
| trivia_space (a : ascii) (u : list ascii) :
    space_char a = true -> trivia u -> trivia (a :: u)
| trivia_comment (body : list ascii) (nl : ascii) (u : list ascii) :
    comment_body body = true -> line_end nl = true -> trivia u ->
    trivia ("#"%char :: body ++ nl :: u).

(** The state after [k] calls of [gettok], and what the first [k] calls
    deliver: each token with the values of [IdentifierStr] and [NumVal] that
    accompany it. *)
Fixpoint gettok_iter (k : nat) (s : State) : option State :=
  match k with
  | O => Some s
  | S k =>
      match gettok s with
      | Some (_, s') => gettok_iter k s'
      | None => None
      end
  end.

Fixpoint lex_trace (k : nat) (s : State) : list (Z * string * double) :=
  match k with
  | O => []
  | S k =>
      match gettok s with
      | Some (t, s') => (t, IdentifierStr s', NumVal s') :: lex_trace k s'
      | None => []
      end
  end.

(** The token [gettok] returns for the collected identifier text. *)
Definition identifier_token (id : string) : Z :=
  if String.eqb id "def" then tok_def
  else if String.eqb id "extern" then tok_extern
  else tok_identifier.

(** A character that is returned as a token of its own. *)
Definition other_char (a : ascii) : bool :=
  negb (space_char a) && negb (alpha_char a) && negb (number_char a)
  && negb (chr a =? chr "#").

(** The pending characters of a state, read back from [LastChar] and the
    unread input. *)
Definition pending (s : State) : list ascii :=
  if LastChar s =? EOF then [] else to_char (LastChar s) :: stdin s.

(** [token_boundary s pre post]: with [pre ++ post] pending in [s], the
    place between [pre] and [post] lies between two tokens: some call of
    [gettok] starts when, apart from white space and comments of [pre] not yet
    skipped, exactly [post] is pending. *)
Definition token_boundary (s : State) (pre post : list ascii) : Prop :=
  exists k s_k tr0,
    gettok_iter k (with_pending s (pre ++ post)) = Some s_k
    /\ trivia tr0 /\ pending s_k = tr0 ++ post.

(** Two states that agree on everything the parser looks at: the statics
    other than the lexer's look-ahead, and all tokens still to come. *)
Definition token_equiv (s1 s2 : State) : Prop :=
  IdentifierStr s1 = IdentifierStr s2 /\ NumVal s1 = NumVal s2
  /\ CurTok s1 = CurTok s2 /\ BinopPrecedence s1 = BinopPrecedence s2
  /\ stderr s1 = stderr s2
  /\ forall m, lex_trace m s1 = lex_trace m s2.

(** The state a computation ends in ([d] if it ran out of fuel). *)
Definition state_after {A} (r : option (A * State)) (d : State) : State :=
  match r with
  | Some (_, s) => s
  | None => d
  end.

(** The program started on [text], after [main] and the first call of
    [getNextToken]; and the same after the first primary expression has been
    parsed as well. *)
Definition at_first_token (text : string) : State :=
  state_after (getNextToken (main (initial (list_ascii_of_string text))))
    (initial []).

Definition after_first_primary (fuel : nat) (text : string) : State :=
  state_after (ParsePrimary fuel (at_first_token text)) (initial []).

(** What parsing a text returns, and what it leaves on stderr. *)
Definition parse_result (fuel : nat) (text : string) : option (option ExprAST) :=
  option_map fst (parse_text fuel text).

Definition parse_stderr (fuel : nat) (text : string) : option (list string) :=
  option_map (fun r => stderr (snd r)) (parse_text fuel text).

(** A parse function run with some sufficient amount of fuel. *)
Definition runs {A} (f : nat -> M A) (s : State) (r : A * State) : Prop :=
  exists n, f n s = Some r.

(** The state after [LogError Str]. *)
Definition logged (Str : string) (s : State) : State :=
  set_stderr s (stderr s ++ [error_line Str]).

(** Two tables that make [operator[]] return the same value for every key. *)
Definition same_precedences (m m' : gmap Z Z) : Prop :=
  forall k, fst (map_subscript m k) = fst (map_subscript m' k).

(** [table_extends m m']: every key has in [m'] the entry it has in [m], or
    it had none and has the entry 0. *)
Definition table_extends (m m' : gmap Z Z) : Prop :=
  forall k, m' !! k = m !! k \/ (m !! k = None /\ m' !! k = Some 0).

(** The operations of the lexer and the parser, and the state a sequence of
    them ends in ([None] if some operation was given too little fuel). *)
Inductive Operation : Type :=
| op_gettok
| op_getNextToken
| op_GetTokPrecedence
| op_LogError (Str : string)
| op_ParseNumberExpr
| op_ParseParenExpr (fuel : nat)
| op_ParseIdentifierExpr (fuel : nat)
| op_ParsePrimary (fuel : nat)
| op_ParseExpression (fuel : nat)
| op_ParseBinOpRHS (fuel : nat) (ExprPrec : Z) (LHS : ExprAST).

Definition run_operation (o : Operation) (s : State) : option State :=
  match o with
  | op_gettok => option_map snd (gettok s)
  | op_getNextToken => option_map snd (getNextToken s)
  | op_GetTokPrecedence => option_map snd (GetTokPrecedence s)
  | op_LogError Str => option_map snd (LogError Str s)
  | op_ParseNumberExpr => option_map snd (ParseNumberExpr s)
  | op_ParseParenExpr fuel => option_map snd (ParseParenExpr fuel s)
  | op_ParseIdentifierExpr fuel => option_map snd (ParseIdentifierExpr fuel s)
  | op_ParsePrimary fuel => option_map snd (ParsePrimary fuel s)
  | op_ParseExpression fuel => option_map snd (ParseExpression fuel s)
  | op_ParseBinOpRHS fuel ExprPrec LHS =>
      option_map snd (ParseBinOpRHS fuel ExprPrec LHS s)
  end.

Fixpoint run_operations (ops : list Operation) (s : State) : option State :=
  match ops with
  | [] => Some s
  | o :: ops =>
      match run_operation o s with
      | Some s' => run_operations ops s'
      | None => None
      end
  end.

(** [operator_chain ExprPrec s chain s']: in [s] the current token and what
    follows it form a chain of binary operators, each of precedence at least
    [ExprPrec] and each followed by a primary expression; [chain] lists, in
    source order, each operator with its precedence and its right operand,
    and [s'] is the state at the first token that is no such operator. *)
Inductive operator_chain (ExprPrec : Z)
  : State -> list (ascii * Z * ExprAST) -> State -> Prop :=
| chain_end (s : State) (TokPrec : Z) (s1 : State) :
    GetTokPrecedence s = Some (TokPrec, s1) -> TokPrec < ExprPrec ->
    operator_chain ExprPrec s [] s1
| chain_step (s : State) (TokPrec : Z) (s1 : State) (t : Z) (s2 : State)
             (RHS : ExprAST) (s3 : State) (NextPrec : Z) (s4 : State)
             (chain : list (ascii * Z * ExprAST)) (s' : State) :
    GetTokPrecedence s = Some (TokPrec, s1) -> ExprPrec <= TokPrec ->
    getNextToken s1 = Some (t, s2) ->
    runs ParsePrimary s2 (Some RHS, s3) ->
    GetTokPrecedence s3 = Some (NextPrec, s4) ->
    operator_chain ExprPrec s4 chain s' ->
    operator_chain ExprPrec s ((to_char (CurTok s1), TokPrec, RHS) :: chain) s'.

(** The tree that combines [LHS] with the operands of a chain from left to
    right: ((LHS op1 r1) op2 r2) ... *)
Definition left_nested (LHS : ExprAST) (chain : list (ascii * Z * ExprAST)) : ExprAST :=
  fold_left (fun acc x => BinaryExprAST (fst (fst x)) acc (snd x)) chain LHS.

(** The message of a malformed argument list, and the property that a
    state in which it was the last thing written to stderr has a current token
    that is neither [')'] nor [',']. *)
Definition args_error : string := "Expected ')' or ',' in argument list".

Definition args_error_token (s : State) : Prop :=
  last (stderr s) = Some (error_line args_error) ->
  CurTok s <> chr ")" /\ CurTok s <> chr ",".

(** [argument_list s Args s']: starting in [s], the expressions [Args] are
    parsed one after the other, each but the last followed by a [','] that is
    consumed; [s'] is the state right after the last of them. *)
Inductive argument_list : State -> list ExprAST -> State -> Prop :=
| arguments_last (s : State) (Arg : ExprAST) (s1 : State) :
    runs ParseExpression s (Some Arg, s1) ->
    argument_list s [Arg] s1
| arguments_more (s : State) (Arg : ExprAST) (s1 : State) (t : Z) (s2 : State)
                 (Args : list ExprAST) (s' : State) :
    runs ParseExpression s (Some Arg, s1) ->
    CurTok s1 = chr "," ->
    getNextToken s1 = Some (t, s2) ->
    argument_list s2 Args s' ->
    argument_list s (Arg :: Args) s'.

(** ** The declarations the parser does not use yet *)

(** [PrototypeAST] and [FunctionAST] are declared for the definitions and
    [extern]s of the language; no function of the program builds one.
    [LogErrorP] is [LogError] for a prototype. *)
Record PrototypeAST : Type := mkPrototypeAST {
  proto_Name : string;
  proto_Args : list string
}.

Record FunctionAST : Type := mkFunctionAST {
  Proto : PrototypeAST;
  Body : ExprAST
}.

(** [LogErrorP(Str)]: [LogError(Str); return nullptr;] *)
Definition LogErrorP (Str : string) : M (option PrototypeAST) :=
  LogError Str ;;; ret None.

(** ** Measures of what is left to read *)

(** The characters the lexer can still deliver: the unread input and the
    look-ahead in [LastChar], unless that is [EOF]. *)
Definition chars_left (c : Z) (inp : list ascii) : nat :=
  (length inp + (if (c =? EOF)%Z then 0 else 1))%nat.

Definition lexer_size (s : State) : nat := chars_left (LastChar s) (stdin s).

(** The same, counting the current token of the parser as well. *)
Definition remaining (s : State) : nat :=
  (lexer_size s + (if (CurTok s =? tok_eof)%Z then 0 else 1))%nat.

(** An operation after which no more is left to read than before. *)
Definition shrinks {A} (m : M A) : Prop :=
  forall s a s', m s = Some (a, s') -> (remaining s' <= remaining s)%nat.

(** An operation that writes nothing to stderr. *)
Definition silent {A} (m : M A) : Prop :=
  forall s a s', m s = Some (a, s') -> stderr s' = stderr s.

(** The messages of the parser; and an operation that either returns a
    value and has written nothing to stderr, or returns [nullptr] and has
    written exactly one line, with one of these messages. *)
Definition parser_message (Str : string) : Prop :=
  Str = "Unknown Token! Expected an expression"%string
  \/ Str = "Expected ')'"%string
  \/ Str = args_error.

Definition one_error {A} (m : M (option A)) : Prop :=
  forall s r s', m s = Some (r, s') ->
    match r with
    | Some _ => stderr s' = stderr s
    | None => exists Str, parser_message Str
                          /\ stderr s' = stderr s ++ [error_line Str]
    end.

(** A parse function that returns when given enough fuel. *)
Definition halts {A} (f : nat -> M A) (s : State) : Prop :=
  exists n r, f n s = Some r.

(** ** Properties of computations used in the proofs *)

(** [le_M m m']: whatever [m] returns, [m'] returns as well. *)
Definition le_M {A} (m m' : M A) : Prop :=
  forall s r, m s = Some r -> m' s = Some r.

(** Wherever a parse function returns [nullptr], the message it has just
    logged tells the token it stopped at. *)
Definition fail_inv {A} (m : M (option A)) : Prop :=
  forall s s', m s = Some (None, s') -> args_error_token s'.

(** An operation that leaves the table as it is or extends it. *)
Definition frame {A} (m : M A) : Prop :=
  forall s a s', m s = Some (a, s') ->
                 table_extends (BinopPrecedence s) (BinopPrecedence s').

(** The five shapes of what is pending when [gettok] is called. *)
Inductive lexeme_shape : list ascii -> Prop :=
| shape_end (tr : list ascii) :
    trivia tr -> lexeme_shape tr
| shape_open_comment (tr body : list ascii) :
    trivia tr -> comment_body body = true ->
    lexeme_shape (tr ++ "#"%char :: body)
| shape_identifier (tr : list ascii) (c : ascii) (run v : list ascii) :
    trivia tr -> alpha_char c = true -> forallb alnum_char run = true ->
    isalnum (lookahead v) = false ->
    lexeme_shape (tr ++ c :: run ++ v)
| shape_number (tr : list ascii) (c : ascii) (run v : list ascii) :
    trivia tr -> number_char c = true -> forallb number_char run = true ->
    number_start (lookahead v) = false ->
    lexeme_shape (tr ++ c :: run ++ v)
| shape_other (tr : list ascii) (c : ascii) (v : list ascii) :
    trivia tr -> other_char c = true ->
    lexeme_shape (tr ++ c :: v).

(** [compatible v v2]: the first character of [v2] ends a token that the
    first character of [v] ends. *)
Definition compatible (v v2 : list ascii) : Prop :=
  lookahead v2 = lookahead v
  \/ (isalnum (lookahead v2) = false /\ number_start (lookahead v2) = false).

(** States with the same lexer statics and the same unread input. *)
Definition lexer_eq (s1 s2 : State) : Prop :=
  stdin s1 = stdin s2 /\ LastChar s1 = LastChar s2
  /\ IdentifierStr s1 = IdentifierStr s2 /\ NumVal s1 = NumVal s2.

(** States with the same parser statics. *)
Definition statics_eq (s1 s2 : State) : Prop :=
  CurTok s1 = CurTok s2 /\ BinopPrecedence s1 = BinopPrecedence s2
  /\ stderr s1 = stderr s2.

(** An operation that, run in two states with the same tokens to come,
    returns the same value and leaves such states. *)
Definition sim {A} (m : M A) : Prop :=
  forall s1 s2, token_equiv s1 s2 ->
    match m s1, m s2 with
    | Some (a1, s1'), Some (a2, s2') => a1 = a2 /\ token_equiv s1' s2'
    | None, None => True
    | _, _ => False
    end.

(** * Basic facts *)

Lemma chr_range (a : ascii) : 0 <= chr a < 256.
Proof.
  unfold chr. pose proof (N_ascii_bounded a). lia.
Qed.

Lemma chr_not_EOF (a : ascii) : (chr a =? EOF) = false.
Proof.
  pose proof (chr_range a). unfold EOF. apply Z.eqb_neq. lia.
Qed.

Lemma to_char_chr (a : ascii) : to_char (chr a) = a.
Proof.
  unfold to_char. pose proof (chr_range a).
  rewrite Z.mod_small by lia. unfold chr.
  rewrite N2Z.id. apply ascii_N_embedding.
Qed.

Lemma chr_inj (a b : ascii) : chr a = chr b -> a = b.
Proof.
  intros H. rewrite <- (to_char_chr a), <- (to_char_chr b). now rewrite H.
Qed.

Lemma isspace_EOF : isspace EOF = false.
Proof. reflexivity. Qed.

(** ** The loops of the lexer only consume input *)

Lemma skip_whitespace_length (c : Z) (inp : list ascii) :
  (length (snd (skip_whitespace c inp)) <= length inp)%nat.
Proof.
  revert c. induction inp as [|a inp IH]; intros c; simpl.
  - destruct (isspace c); simpl; lia.
  - destruct (isspace c); simpl; [specialize (IH (chr a)); lia | lia].
Qed.

Lemma skip_comment_length (inp : list ascii) :
  fst (skip_comment inp) <> EOF ->
  (length (snd (skip_comment inp)) < length inp)%nat.
Proof.
  induction inp as [|a inp IH]; simpl; intros H.
  - congruence.
  - destruct (negb (chr a =? EOF) && negb (chr a =? 10) && negb (chr a =? 13)).
    + specialize (IH H). lia.
    + simpl. lia.
Qed.

(** ** Fuel of [gettok] *)

Lemma gettok_fuel_mono (n : nat) :
  forall s r, gettok_fuel n s = Some r -> gettok_fuel (S n) s = Some r.
Proof.
  induction n as [|n IH]; intros s r H; [discriminate|].
  cbn [gettok_fuel] in H. cbn [gettok_fuel].
  destruct (skip_whitespace (LastChar s) (stdin s)) as [c inp].
  destruct (isalpha c); [exact H|].
  destruct (isdigit c || (c =? chr "."))%bool; [exact H|].
  destruct (c =? chr "#"); [|exact H].
  destruct (skip_comment inp) as [c' inp'].
  destruct (negb (c' =? EOF)); [|exact H].
  apply IH in H. exact H.
Qed.

Lemma gettok_fuel_le (n m : nat) s r :
  (n <= m)%nat -> gettok_fuel n s = Some r -> gettok_fuel m s = Some r.
Proof.
  induction 1 as [|m Hle IH]; intros H; [exact H|].
  apply gettok_fuel_mono, IH, H.
Qed.

Lemma gettok_fuel_enough (n : nat) :
  forall s, (length (stdin s) < n)%nat -> exists r, gettok_fuel n s = Some r.
Proof.
  induction n as [|n IH]; intros s Hlen; [lia|].
  cbn [gettok_fuel].
  pose proof (skip_whitespace_length (LastChar s) (stdin s)) as Hws.
  destruct (skip_whitespace (LastChar s) (stdin s)) as [c inp]. simpl in Hws.
  destruct (isalpha c).
  { destruct (read_identifier (IdentifierStr s) inp) as [[id c'] inp'].
    destruct (String.eqb id "def"); [eauto|].
    destruct (String.eqb id "extern"); eauto. }
  destruct (isdigit c || (c =? chr "."))%bool.
  { destruct (read_number EmptyString c inp) as [[NumStr c'] inp']. eauto. }
  destruct (c =? chr "#"); [|eauto].
  pose proof (skip_comment_length inp) as Hc.
  destruct (skip_comment inp) as [c' inp']. simpl in Hc.
  destruct (c' =? EOF) eqn:E; simpl; [eauto|].
  apply IH. simpl. apply Z.eqb_neq in E. specialize (Hc E). lia.
Qed.

(** [gettok] always returns: the fuel it is given is enough. *)
Lemma gettok_total (s : State) : exists t s', gettok s = Some (t, s').
Proof.
  destruct (gettok_fuel_enough (S (length (stdin s))) s) as [[t s'] H]; [lia|].
  exists t, s'. exact H.
Qed.

Lemma gettok_fuel_gettok (n : nat) s r :
  gettok_fuel n s = Some r -> gettok s = Some r.
Proof.
  intros H. destruct (gettok_total s) as (t & s' & Ht).
  rewrite Ht. unfold gettok in Ht.
  destruct (Nat.le_ge_cases n (S (length (stdin s)))) as [Hle|Hle].
  - rewrite (gettok_fuel_le _ _ _ _ Hle H) in Ht. congruence.
  - rewrite (gettok_fuel_le _ _ _ _ Hle Ht) in H. congruence.
Qed.

Lemma getNextToken_total (s : State) :
  exists s', getNextToken s = Some (CurTok s', s').
Proof.
  destruct (gettok_total s) as (t & s' & H).
  exists (set_CurTok s' t). unfold getNextToken. now rewrite H.
Qed.

(** ** Equations of the parse functions *)

Lemma ParsePrimary_S (n : nat) :
  ParsePrimary (S n) =
  (tok <- get CurTok ;;
   if tok =? tok_identifier then ParseIdentifierExpr n
   else if tok =? tok_number then ParseNumberExpr
   else if tok =? chr "(" then ParseParenExpr n
   else LogError "Unknown Token! Expected an expression").
Proof. reflexivity. Qed.

Lemma ParseParenExpr_S (n : nat) :
  ParseParenExpr (S n) =
  (getNextToken ;;;
   V <- ParseExpression n ;;
   match V with
   | None => ret None
   | Some V =>
       tok <- get CurTok ;;
       if negb (tok =? chr ")") then LogError "Expected ')'"
       else getNextToken ;;; ret (Some V)
   end).
Proof. reflexivity. Qed.

Lemma ParseIdentifierExpr_S (n : nat) :
  ParseIdentifierExpr (S n) =
  (IdName <- get IdentifierStr ;;
   getNextToken ;;;
   tok <- get CurTok ;;
   if negb (tok =? chr "(") then ret (Some (VariableExprAST IdName))
   else
     getNextToken ;;;
     tok <- get CurTok ;;
     Args <- (if negb (tok =? chr ")") then ParseArgs n [] else ret (Some [])) ;;
     match Args with
     | None => ret None
     | Some Args => getNextToken ;;; ret (Some (CallExprAST IdName Args))
     end).
Proof. reflexivity. Qed.

Lemma ParseArgs_S (n : nat) (Args : list ExprAST) :
  ParseArgs (S n) Args =
  (Arg <- ParseExpression n ;;
   match Arg with
   | None => ret None
   | Some Arg =>
       tok <- get CurTok ;;
       if tok =? chr ")" then ret (Some (Args ++ [Arg]))
       else if negb (tok =? chr ",") then
         LogError "Expected ')' or ',' in argument list" ;;; ret None
       else getNextToken ;;; ParseArgs n (Args ++ [Arg])
   end).
Proof. reflexivity. Qed.

Lemma ParseExpression_S (n : nat) :
  ParseExpression (S n) =
  (LHS <- ParsePrimary n ;;
   match LHS with
   | None => ret None
   | Some LHS => ParseBinOpRHS n 0 LHS
   end).
Proof. reflexivity. Qed.

Lemma ParseBinOpRHS_S (n : nat) (ExprPrec : Z) (LHS : ExprAST) (s : State) :
  ParseBinOpRHS (S n) ExprPrec LHS s =
  (TokPrec <- GetTokPrecedence ;;
   if TokPrec <? ExprPrec then ret (Some LHS)
   else
     BinOp <- get CurTok ;;
     getNextToken ;;;
     RHS <- ParsePrimary n ;;
     match RHS with
     | None => ret None
     | Some RHS =>
         NextPrec <- GetTokPrecedence ;;
         ParseBinOpRHS n ExprPrec (BinaryExprAST (to_char BinOp) LHS RHS)
     end) s.
Proof.
  cbn [ParseBinOpRHS]. unfold bind.
  destruct (GetTokPrecedence s) as [[TokPrec s1]|]; [|reflexivity].
  destruct (TokPrec <? ExprPrec); [reflexivity|].
  destruct (get CurTok s1) as [[BinOp s2]|]; [|reflexivity].
  destruct (getNextToken s2) as [[t s3]|]; [|reflexivity].
  destruct (ParsePrimary n s3) as [[[RHS|] s4]|]; try reflexivity.
  destruct (GetTokPrecedence s4) as [[NextPrec s5]|]; [|reflexivity].
  destruct (TokPrec <? NextPrec); reflexivity.
Qed.

(** ** More fuel never changes a result *)

Lemma le_M_refl {A} (m : M A) : le_M m m.
Proof. intros s r H. exact H. Qed.

Lemma le_M_bind {A B} (m m' : M A) (k k' : A -> M B) :
  le_M m m' -> (forall a, le_M (k a) (k' a)) -> le_M (bind m k) (bind m' k').
Proof.
  intros Hm Hk s r. unfold bind.
  destruct (m s) as [[a s']|] eqn:E; [|discriminate].
  rewrite (Hm _ _ E). apply Hk.
Qed.

Lemma le_M_ext {A} (m1 m1' m2 m2' : M A) :
  (forall s, m1 s = m1' s) -> (forall s, m2 s = m2' s) ->
  le_M m1' m2' -> le_M m1 m2.
Proof.
  intros H1 H2 H s r. rewrite H1, H2. apply H.
Qed.

Ltac le_M_step :=
  first
    [ assumption
    | apply le_M_refl
    | apply le_M_bind; [|intros ?]
    | match goal with
      | |- le_M (if ?b then _ else _) (if ?b then _ else _) => destruct b
      | |- le_M (match ?o with Some _ => _ | None => _ end)
                (match ?o with Some _ => _ | None => _ end) => destruct o
      | H : forall _, le_M _ _ |- _ => apply H
      | H : forall _ _, le_M _ _ |- _ => apply H
      end ].

Lemma Parse_fuel_S (n : nat) :
  le_M (ParsePrimary n) (ParsePrimary (S n)) /\
  le_M (ParseParenExpr n) (ParseParenExpr (S n)) /\
  le_M (ParseIdentifierExpr n) (ParseIdentifierExpr (S n)) /\
  (forall Args, le_M (ParseArgs n Args) (ParseArgs (S n) Args)) /\
  le_M (ParseExpression n) (ParseExpression (S n)) /\
  (forall ExprPrec LHS,
      le_M (ParseBinOpRHS n ExprPrec LHS) (ParseBinOpRHS (S n) ExprPrec LHS)).
Proof.
  induction n as [|n (IH1 & IH2 & IH3 & IH4 & IH5 & IH6)].
  - repeat split; intros; intros s r H; discriminate.
  - repeat split; intros.
    + rewrite !ParsePrimary_S. repeat le_M_step.
    + rewrite !ParseParenExpr_S. repeat le_M_step.
    + rewrite !ParseIdentifierExpr_S. repeat le_M_step.
    + rewrite !ParseArgs_S. repeat le_M_step.
    + rewrite !ParseExpression_S. repeat le_M_step.
    + eapply le_M_ext; [apply ParseBinOpRHS_S | apply ParseBinOpRHS_S |].
      repeat le_M_step.
Qed.

(** ** The loops of the lexer on a pending stream *)

Lemma skip_whitespace_eq (c : Z) (inp : list ascii) :
  skip_whitespace c inp =
  if isspace c then
    match inp with
    | [] => (EOF, [])
    | a :: rest => skip_whitespace (chr a) rest
    end
  else (c, inp).
Proof. destruct inp; reflexivity. Qed.

Lemma skip_whitespace_pending (ws rest : list ascii) :
  forallb space_char ws = true ->
  isspace (lookahead rest) = false ->
  skip_whitespace (lookahead (ws ++ rest)) (tail (ws ++ rest)) =
  (lookahead rest, tail rest).
Proof.
  intros Hws Hrest. induction ws as [|a ws IH].
  - simpl. rewrite skip_whitespace_eq, Hrest. reflexivity.
  - simpl in Hws. apply andb_prop in Hws as [Ha Hws]. specialize (IH Hws).
    cbn [app lookahead tail]. rewrite skip_whitespace_eq.
    unfold space_char in Ha. rewrite Ha.
    destruct (ws ++ rest) as [|b u] eqn:E; [|exact IH].
    destruct ws; [|discriminate]. simpl in E. subst rest. reflexivity.
Qed.

Lemma skip_comment_to_eof (body : list ascii) :
  comment_body body = true ->
  skip_comment body = (EOF, []).
Proof.
  unfold comment_body. intros H. induction body as [|a body IH]; [reflexivity|].
  simpl in H. apply andb_prop in H as [Ha H].
  cbn [skip_comment]. rewrite chr_not_EOF.
  unfold line_end in Ha. apply negb_true_iff, orb_false_iff in Ha as [H10 H13].
  rewrite H10, H13. simpl. apply IH, H.
Qed.

Lemma skip_comment_to_line_end (body : list ascii) (nl : ascii) (rest : list ascii) :
  comment_body body = true ->
  line_end nl = true ->
  skip_comment (body ++ nl :: rest) = (chr nl, rest).
Proof.
  unfold comment_body. intros H Hnl. induction body as [|a body IH].
  - cbn [app skip_comment]. unfold line_end in Hnl. rewrite chr_not_EOF.
    destruct (chr nl =? 10), (chr nl =? 13); simpl in *;
      reflexivity || discriminate.
  - simpl in H. apply andb_prop in H as [Ha H].
    cbn [app skip_comment]. rewrite chr_not_EOF.
    unfold line_end in Ha. apply negb_true_iff, orb_false_iff in Ha as [H10 H13].
    rewrite H10, H13. simpl. apply IH, H.
Qed.

Lemma append_String (b : ascii) (x y : string) :
  (String b x ++ y)%string = String b (x ++ y)%string.
Proof. reflexivity. Qed.

Lemma append_empty_r (x : string) : (x ++ "")%string = x.
Proof.
  induction x as [|b x IH]; [reflexivity|]. now rewrite append_String, IH.
Qed.

Lemma append_char_assoc (x : string) (a : ascii) (y : string) :
  ((x ++ String a "") ++ y)%string = (x ++ String a y)%string.
Proof.
  induction x as [|b x IH]; [reflexivity|]. now rewrite !append_String, IH.
Qed.

Lemma read_number_pending (run rest : list ascii) :
  forallb number_char run = true ->
  number_start (lookahead rest) = false ->
  forall NumStr c,
    read_number NumStr (chr c) (run ++ rest) =
    ((NumStr ++ string_of_list_ascii (c :: run))%string, lookahead rest, tail rest).
Proof.
  intros Hrun Hrest. induction run as [|a run IH]; intros NumStr c.
  - cbn [app string_of_list_ascii]. destruct rest as [|b rest].
    + cbn [read_number lookahead tail]. now rewrite to_char_chr.
    + cbn [read_number lookahead tail]. rewrite to_char_chr.
      cbn [lookahead] in Hrest. unfold number_start in Hrest. now rewrite Hrest.
  - simpl in Hrun. apply andb_prop in Hrun as [Ha Hrun].
    cbn [app read_number]. unfold number_char in Ha. rewrite Ha.
    rewrite (IH Hrun), to_char_chr.
    change (string_of_list_ascii (c :: a :: run))
      with (String c (string_of_list_ascii (a :: run))).
    now rewrite append_char_assoc.
Qed.

Lemma read_identifier_pending (run rest : list ascii) :
  forallb alnum_char run = true ->
  isalnum (lookahead rest) = false ->
  forall id,
    read_identifier id (run ++ rest) =
    ((id ++ string_of_list_ascii run)%string, lookahead rest, tail rest).
Proof.
  intros Hrun Hrest. induction run as [|a run IH]; intros id.
  - cbn [app string_of_list_ascii].
    destruct rest as [|b rest]; cbn [read_identifier lookahead tail].
    + now rewrite append_empty_r.
    + cbn [lookahead] in Hrest. now rewrite Hrest, append_empty_r.
  - simpl in Hrun. apply andb_prop in Hrun as [Ha Hrun].
    cbn [app read_identifier]. unfold alnum_char in Ha. rewrite Ha.
    rewrite (IH Hrun), to_char_chr.
    change (string_of_list_ascii (a :: run))
      with (String a (string_of_list_ascii run)).
    now rewrite append_char_assoc.
Qed.

(** ** [gettok] on a pending stream *)

Lemma line_end_space (a : ascii) : line_end a = true -> space_char a = true.
Proof.
  unfold line_end, space_char, isspace. intros H.
  apply orb_prop in H as [H|H]; apply Z.eqb_eq in H; rewrite H; reflexivity.
Qed.

(** [gettok] looks at the lexer part of the state only through the result
    of its white-space loop. *)
Lemma gettok_fuel_whitespace (n : nat) (s : State) (u1 u2 : list ascii) :
  skip_whitespace (lookahead u1) (tail u1) = skip_whitespace (lookahead u2) (tail u2) ->
  gettok_fuel n (with_pending s u1) = gettok_fuel n (with_pending s u2).
Proof.
  intros H. destruct n as [|n]; [reflexivity|].
  cbn [gettok_fuel with_pending set_lexer LastChar stdin]. rewrite H. reflexivity.
Qed.

Lemma gettok_fuel_space (n : nat) (s : State) (a : ascii) (u : list ascii) :
  space_char a = true ->
  gettok_fuel n (with_pending s (a :: u)) = gettok_fuel n (with_pending s u).
Proof.
  intros Ha. apply gettok_fuel_whitespace. cbn [lookahead tail].
  rewrite skip_whitespace_eq. unfold space_char in Ha. rewrite Ha.
  destruct u as [|b u]; reflexivity.
Qed.

Lemma gettok_fuel_comment (n : nat) (s : State) (body : list ascii) (nl : ascii)
      (u : list ascii) :
  comment_body body = true -> line_end nl = true ->
  gettok_fuel (S n) (with_pending s ("#"%char :: body ++ nl :: u)) =
  gettok_fuel n (with_pending s u).
Proof.
  intros Hb Hnl. rewrite <- (gettok_fuel_space n s nl u (line_end_space _ Hnl)).
  cbn [gettok_fuel with_pending set_lexer LastChar stdin lookahead tail].
  rewrite skip_whitespace_eq.
  change (isspace (chr "#")) with false. cbv iota.
  change (isalpha (chr "#")) with false. cbv iota.
  change (isdigit (chr "#") || (chr "#" =? chr "."))%bool with false. cbv iota.
  change (chr "#" =? chr "#") with true. cbv iota.
  rewrite (skip_comment_to_line_end body nl u Hb Hnl).
  rewrite chr_not_EOF. reflexivity.
Qed.

Lemma gettok_eq_via (s1 s2 : State) :
  (forall n r, gettok_fuel n s2 = Some r -> exists m, gettok_fuel m s1 = Some r) ->
  gettok s1 = gettok s2.
Proof.
  intros H. destruct (gettok_total s2) as (t & s' & E). rewrite E.
  destruct (H _ _ E) as [m Hm]. exact (gettok_fuel_gettok _ _ _ Hm).
Qed.

(** White space and comments in front of the pending characters are skipped
    without a trace. *)
Lemma gettok_trivia (s : State) (tr rest : list ascii) :
  trivia tr ->
  gettok (with_pending s (tr ++ rest)) = gettok (with_pending s rest).
Proof.
  induction 1 as [|a u Ha Hu IH|body nl u Hb Hnl Hu IH]; [reflexivity| |].
  - rewrite <- IH. apply gettok_eq_via. intros n r Hn. exists n.
    cbn [app]. now rewrite gettok_fuel_space.
  - rewrite <- IH. apply gettok_eq_via. intros n r Hn. exists (S n).
    cbn [app]. rewrite <- app_assoc. cbn [app].
    now rewrite gettok_fuel_comment.
Qed.

Ltac char_class :=
  unfold other_char, space_char, alpha_char, alnum_char, number_char,
    number_start, line_end, isalnum, isalpha, isdigit, isspace, isascii, EOF in *;
  repeat match goal with
         | a : ascii |- _ =>
             lazymatch goal with
             | _ : 0 <= chr a < 256 |- _ => fail
             | _ => pose proof (chr_range a)
             end
         end;
  change (chr ".") with 46 in *; change (chr "#") with 35 in *;
  repeat rewrite ?andb_true_iff, ?orb_true_iff, ?andb_false_iff, ?orb_false_iff,
    ?negb_true_iff, ?negb_false_iff, ?Z.leb_le, ?Z.leb_gt, ?Z.eqb_eq, ?Z.eqb_neq in *;
  try lia.

Lemma alpha_not_space (c : Z) : isalpha c = true -> isspace c = false.
Proof. intros H. char_class. Qed.

Lemma number_not_space (c : Z) : number_start c = true -> isspace c = false.
Proof. intros H. char_class. Qed.

Lemma number_not_alpha (c : Z) : number_start c = true -> isalpha c = false.
Proof. intros H. char_class. Qed.

Lemma gettok_identifier_here (n : nat) (s : State) (c : ascii) (run v : list ascii) :
  alpha_char c = true -> forallb alnum_char run = true ->
  isalnum (lookahead v) = false ->
  gettok_fuel (S n) (with_pending s (c :: run ++ v)) =
  Some (identifier_token (IdentifierStr s ++ string_of_list_ascii run),
        set_IdentifierStr (with_pending s v)
          (IdentifierStr s ++ string_of_list_ascii run)).
Proof.
  intros Hc Hrun Hv.
  cbn [gettok_fuel with_pending set_lexer LastChar stdin lookahead tail IdentifierStr].
  rewrite skip_whitespace_eq.
  unfold alpha_char in Hc. rewrite (alpha_not_space _ Hc), Hc.
  rewrite (read_identifier_pending run v Hrun Hv).
  unfold identifier_token.
  destruct (String.eqb _ "def"); [reflexivity|].
  destruct (String.eqb _ "extern"); reflexivity.
Qed.

Lemma gettok_number_here (n : nat) (s : State) (c : ascii) (run v : list ascii) :
  number_char c = true -> forallb number_char run = true ->
  number_start (lookahead v) = false ->
  gettok_fuel (S n) (with_pending s (c :: run ++ v)) =
  Some (tok_number,
        set_NumVal (with_pending s v) (strtod (string_of_list_ascii (c :: run)))).
Proof.
  intros Hc Hrun Hv.
  cbn [gettok_fuel with_pending set_lexer LastChar stdin lookahead tail].
  rewrite skip_whitespace_eq.
  change (number_char c) with (number_start (chr c)) in Hc.
  rewrite (number_not_space _ Hc), (number_not_alpha _ Hc).
  unfold number_start in Hc. rewrite Hc.
  rewrite (read_number_pending run v Hrun Hv). reflexivity.
Qed.

Lemma gettok_comment_eof (n : nat) (s : State) (body : list ascii) :
  comment_body body = true ->
  gettok_fuel (S n) (with_pending s ("#"%char :: body)) =
  Some (tok_eof, with_pending s []).
Proof.
  intros Hb.
  cbn [gettok_fuel with_pending set_lexer LastChar stdin lookahead tail].
  rewrite skip_whitespace_eq.
  change (isspace (chr "#")) with false. cbv iota.
  change (isalpha (chr "#")) with false. cbv iota.
  change (isdigit (chr "#") || (chr "#" =? chr "."))%bool with false. cbv iota.
  change (chr "#" =? chr "#") with true. cbv iota.
  rewrite (skip_comment_to_eof body Hb). reflexivity.
Qed.

Lemma gettok_eof_here (n : nat) (s : State) :
  gettok_fuel (S n) (with_pending s []) = Some (tok_eof, with_pending s []).
Proof. reflexivity. Qed.

Lemma gettok_char_here (n : nat) (s : State) (c : ascii) (v : list ascii) :
  other_char c = true ->
  gettok_fuel (S n) (with_pending s (c :: v)) = Some (chr c, with_pending s v).
Proof.
  intros Hc. unfold other_char in Hc.
  apply andb_prop in Hc as [Hc H4]. apply andb_prop in Hc as [Hc H3].
  apply andb_prop in Hc as [H1 H2].
  apply negb_true_iff in H1, H2, H3, H4.
  cbn [gettok_fuel with_pending set_lexer LastChar stdin lookahead tail].
  rewrite skip_whitespace_eq.
  unfold space_char in H1. unfold alpha_char in H2. unfold number_char in H3.
  rewrite H1, H2, H3, H4.
  unfold gettok_rest. cbn [LastChar stdin set_lexer]. rewrite chr_not_EOF.
  destruct v as [|b v]; reflexivity.
Qed.

(** C9: a comment that runs into the end of input makes [gettok] return
    [tok_eof], leaving the lexer at the end of input.  This holds whatever
    white space and complete comments precede that last comment, and from the
    ['#'] of that comment on a single activation of [gettok] suffices
    (fuel 1): no recursive call is made and no other token is returned. *)
Theorem comment_until_end_of_input (s : State) (tr body : list ascii) :
  trivia tr -> comment_body body = true ->
  gettok (with_pending s (tr ++ "#"%char :: body)) = Some (tok_eof, with_pending s [])
  /\ gettok_fuel 1 (with_pending s ("#"%char :: body)) = Some (tok_eof, with_pending s []).
Proof.
  intros Htr Hb. split.
  - rewrite (gettok_trivia s tr _ Htr).
    apply (gettok_fuel_gettok 1), gettok_comment_eof, Hb.
  - apply gettok_comment_eof, Hb.
Qed.

Lemma gettok_number (s : State) (tr : list ascii) (c : ascii) (run v : list ascii) :
  trivia tr ->
  number_char c = true -> forallb number_char run = true ->
  number_start (lookahead v) = false ->
  gettok (with_pending s (tr ++ c :: run ++ v)) =
  Some (tok_number,
        set_NumVal (with_pending s v) (strtod (string_of_list_ascii (c :: run)))).
Proof.
  intros Htr Hc Hrun Hv. rewrite (gettok_trivia s tr _ Htr).
  apply (gettok_fuel_gettok 1), gettok_number_here; assumption.
Qed.

(** C10: when the first character after white space (and comments) is a
    digit or ['.'], [gettok] consumes the maximal run of digits and ['.']
    characters and returns [tok_number], with [NumVal] converted from exactly
    that run; in particular a ['.'] never comes back as a character token. *)
Theorem number_token (s : State) (tr : list ascii) (c : ascii) (run v : list ascii) :
  trivia tr ->
  number_char c = true -> forallb number_char run = true ->
  number_start (lookahead v) = false ->
  gettok (with_pending s (tr ++ c :: run ++ v)) =
  Some (tok_number,
        set_NumVal (with_pending s v) (strtod (string_of_list_ascii (c :: run)))).
Proof. apply gettok_number. Qed.

(** What [gettok] does on an identifier: the first character is consumed but
    not stored, the rest of the maximal alphanumeric run is appended to what
    [IdentifierStr] already held, and the token is chosen by comparing that
    accumulated text. *)
Lemma identifier_token_accumulates (s : State) (tr : list ascii) (c : ascii)
      (run v : list ascii) :
  trivia tr ->
  alpha_char c = true -> forallb alnum_char run = true ->
  isalnum (lookahead v) = false ->
  gettok (with_pending s (tr ++ c :: run ++ v)) =
  Some (identifier_token (IdentifierStr s ++ string_of_list_ascii run),
        set_IdentifierStr (with_pending s v)
          (IdentifierStr s ++ string_of_list_ascii run)).
Proof.
  intros Htr Hc Hrun Hv. rewrite (gettok_trivia s tr _ Htr).
  apply (gettok_fuel_gettok 1), gettok_identifier_here; assumption.
Qed.

(** ** Fuel of the parser, continued *)

Lemma Parse_fuel_le (n m : nat) :
  (n <= m)%nat ->
  le_M (ParsePrimary n) (ParsePrimary m) /\
  le_M (ParseParenExpr n) (ParseParenExpr m) /\
  le_M (ParseIdentifierExpr n) (ParseIdentifierExpr m) /\
  (forall Args, le_M (ParseArgs n Args) (ParseArgs m Args)) /\
  le_M (ParseExpression n) (ParseExpression m) /\
  (forall ExprPrec LHS,
      le_M (ParseBinOpRHS n ExprPrec LHS) (ParseBinOpRHS m ExprPrec LHS)).
Proof.
  induction 1 as [|m Hle (IH1 & IH2 & IH3 & IH4 & IH5 & IH6)].
  - repeat split; intros; apply le_M_refl.
  - destruct (Parse_fuel_S m) as (S1 & S2 & S3 & S4 & S5 & S6).
    repeat split; intros; intros s r H;
      [apply S1, IH1|apply S2, IH2|apply S3, IH3|apply S4, IH4|apply S5, IH5
      |apply S6, IH6]; exact H.
Qed.

Lemma parse_text_fuel (n m : nat) (text : string) r :
  parse_text n text = Some r -> parse_text (m + n) text = Some r.
Proof.
  unfold parse_text. apply le_M_bind; [apply le_M_refl|intros _].
  apply Parse_fuel_le. lia.
Qed.

Lemma parse_result_fuel (n m : nat) (text : string) r :
  parse_result n text = Some r -> parse_result (m + n) text = Some r.
Proof.
  unfold parse_result. destruct (parse_text n text) as [[a s]|] eqn:E; [|discriminate].
  intros H. now rewrite (parse_text_fuel n m text _ E).
Qed.

(** C1 (what the program does): with the body of [if (TokPrec < NextPrec)]
    left empty, the operator ['*'] that follows the right-hand side [2] is
    not absorbed into it; "1+2*3" is parsed as (1+2)*3. *)
Theorem parse_1_plus_2_times_3 (n : nat) :
  parse_result (n + 10) "1+2*3" =
  Some (Some (BinaryExprAST "*"
                (BinaryExprAST "+" (NumberExprAST (strtod "1"))
                                   (NumberExprAST (strtod "2")))
                (NumberExprAST (strtod "3")))).
Proof.
  apply parse_result_fuel. vm_compute. reflexivity.
Qed.

(** ** Parenthesised expressions *)

Lemma bind_eq {A B} (m : M A) (k : A -> M B) (s : State) (a : A) (s' : State) :
  m s = Some (a, s') -> bind m k s = k a s'.
Proof. intros H. unfold bind. now rewrite H. Qed.

Lemma ParseParenExpr_after_inner (n : nat) (s : State) (t : Z) (s0 : State)
      (V : option ExprAST) (s1 : State) :
  getNextToken s = Some (t, s0) ->
  ParseExpression n s0 = Some (V, s1) ->
  ParseParenExpr (S n) s =
  match V with
  | None => Some (None, s1)
  | Some V =>
      if CurTok s1 =? chr ")" then (getNextToken ;;; ret (Some V)) s1
      else Some (None, logged "Expected ')'" s1)
  end.
Proof.
  intros H0 H1. rewrite ParseParenExpr_S.
  rewrite (bind_eq _ _ _ _ _ H0), (bind_eq _ _ _ _ _ H1).
  destruct V as [V|]; [|reflexivity].
  unfold bind at 1, get. destruct (CurTok s1 =? chr ")"); reflexivity.
Qed.

(** C6: once the inner expression of a parenthesised expression has been
    parsed, [ParseParenExpr] fails exactly when the current token is not
    [')']; the failure writes "Expected ')'" and returns [nullptr] (no tree).
    Otherwise the [')'] is consumed and the inner node itself is returned.
    (A failure of the inner expression is passed on as it is, without a
    message of [ParseParenExpr].)  So "(1+2" fails with that message, and
    "(1+2)*3" gives the tree of (1+2)*3 without any node for the
    parentheses. *)
Theorem ParseParenExpr_closing_paren :
  (forall (n : nat) (s : State) (t : Z) (s0 : State) (V : ExprAST) (s1 : State),
      getNextToken s = Some (t, s0) ->
      ParseExpression n s0 = Some (Some V, s1) ->
      (CurTok s1 <> chr ")" ->
       ParseParenExpr (S n) s = Some (None, logged "Expected ')'" s1))
      /\ (CurTok s1 = chr ")" ->
          exists s2, getNextToken s1 = Some (CurTok s2, s2)
                     /\ ParseParenExpr (S n) s = Some (Some V, s2))
      /\ ((exists s', ParseParenExpr (S n) s = Some (None, s'))
          <-> CurTok s1 <> chr ")"))
  /\ (forall (n : nat) (s : State) (t : Z) (s0 s1 : State),
        getNextToken s = Some (t, s0) ->
        ParseExpression n s0 = Some (None, s1) ->
        ParseParenExpr (S n) s = Some (None, s1))
  /\ (forall n : nat,
        parse_result (n + 10) "(1+2" = Some None
        /\ parse_stderr (n + 10) "(1+2" = Some [error_line "Expected ')'"])
  /\ (forall n : nat,
        parse_result (n + 12) "(1+2)*3" =
        Some (Some (BinaryExprAST "*"
                      (BinaryExprAST "+" (NumberExprAST (strtod "1"))
                                         (NumberExprAST (strtod "2")))
                      (NumberExprAST (strtod "3"))))).
Proof.
  split; [|split; [|split]].
  - intros n s t s0 V s1 H0 H1.
    pose proof (ParseParenExpr_after_inner n s t s0 (Some V) s1 H0 H1) as E.
    cbv iota beta in E.
    destruct (getNextToken_total s1) as [s2 H2].
    split; [|split].
    + intros Hne. apply Z.eqb_neq in Hne. now rewrite Hne in E.
    + intros Heq. apply Z.eqb_eq in Heq. rewrite Heq in E.
      exists s2. split; [exact H2|]. rewrite E.
      now rewrite (bind_eq _ _ _ _ _ H2).
    + split.
      * intros [s' Hs'] Heq. apply Z.eqb_eq in Heq. rewrite Heq in E.
        rewrite (bind_eq _ _ _ _ _ H2) in E. unfold ret in E. congruence.
      * intros Hne. apply Z.eqb_neq in Hne. rewrite Hne in E. eauto.
  - intros n s t s0 s1 H0 H1.
    exact (ParseParenExpr_after_inner n s t s0 None s1 H0 H1).
  - intros n. split.
    + apply parse_result_fuel. vm_compute. reflexivity.
    + unfold parse_stderr.
      destruct (parse_text 10 "(1+2") as [r|] eqn:E; [|vm_compute in E; discriminate].
      rewrite (parse_text_fuel 10 n _ _ E). revert E. vm_compute.
      intros E. injection E as <-. reflexivity.
  - intros n. apply parse_result_fuel. vm_compute. reflexivity.
Qed.

(** ** Identifiers and calls *)

Lemma runs_le {A} (f : nat -> M A) (s : State) (r : A * State) (n m : nat) :
  (forall k, le_M (f k) (f (S k))) ->
  f n s = Some r -> (n <= m)%nat -> f m s = Some r.
Proof.
  intros Hf H Hle. induction Hle as [|m Hle IH]; [exact H|]. apply Hf, IH.
Qed.

Lemma ParseExpression_le (n m : nat) s r :
  ParseExpression n s = Some r -> (n <= m)%nat -> ParseExpression m s = Some r.
Proof. intros H Hle. exact (proj1 (proj2 (proj2 (proj2 (proj2 (Parse_fuel_le n m Hle))))) s r H). Qed.

Lemma ParsePrimary_le (n m : nat) s r :
  ParsePrimary n s = Some r -> (n <= m)%nat -> ParsePrimary m s = Some r.
Proof. intros H Hle. exact (proj1 (Parse_fuel_le n m Hle) s r H). Qed.

Lemma ParseArgs_le (n m : nat) Args s r :
  ParseArgs n Args s = Some r -> (n <= m)%nat -> ParseArgs m Args s = Some r.
Proof.
  intros H Hle.
  exact (proj1 (proj2 (proj2 (proj2 (Parse_fuel_le n m Hle)))) Args s r H).
Qed.

Lemma ParseBinOpRHS_le (n m : nat) p L s r :
  ParseBinOpRHS n p L s = Some r -> (n <= m)%nat -> ParseBinOpRHS m p L s = Some r.
Proof.
  intros H Hle.
  exact (proj2 (proj2 (proj2 (proj2 (proj2 (Parse_fuel_le n m Hle))))) p L s r H).
Qed.

Lemma ParseArgs_after_argument (n : nat) (Acc : list ExprAST) (s : State)
      (Arg : ExprAST) (s1 : State) :
  ParseExpression n s = Some (Some Arg, s1) ->
  ParseArgs (S n) Acc s =
  if CurTok s1 =? chr ")" then Some (Some (Acc ++ [Arg]), s1)
  else if negb (CurTok s1 =? chr ",") then Some (None, logged args_error s1)
  else (getNextToken ;;; ParseArgs n (Acc ++ [Arg])) s1.
Proof.
  intros H. rewrite ParseArgs_S, (bind_eq _ _ _ _ _ H).
  unfold bind at 1, get.
  destruct (CurTok s1 =? chr ")"); [reflexivity|].
  destruct (negb (CurTok s1 =? chr ",")); reflexivity.
Qed.

Lemma ParseArgs_argument_list (s : State) (Args : list ExprAST) (s' : State) :
  argument_list s Args s' ->
  forall Acc,
    (CurTok s' = chr ")" ->
     runs (fun n => ParseArgs n Acc) s (Some (Acc ++ Args), s'))
    /\ (CurTok s' <> chr ")" -> CurTok s' <> chr "," ->
        runs (fun n => ParseArgs n Acc) s (None, logged args_error s')).
Proof.
  induction 1 as [s Arg s1 [n Hn]|s Arg s1 t s2 Args s' [n Hn] Hcomma Hnext Hrest IH];
    intros Acc.
  - pose proof (ParseArgs_after_argument n Acc s Arg s1 Hn) as E. split.
    + intros Hc. exists (S n). apply Z.eqb_eq in Hc. now rewrite Hc in E.
    + intros H1 H2. exists (S n). apply Z.eqb_neq in H1, H2.
      now rewrite H1, H2 in E.
  - assert (Hstep : forall m, (n <= m)%nat ->
                ParseArgs (S m) Acc s = ParseArgs m (Acc ++ [Arg]) s2).
    { intros m Hle.
      rewrite (ParseArgs_after_argument m Acc s Arg s1 (ParseExpression_le _ _ _ _ Hn Hle)).
      rewrite Hcomma. change (chr "," =? chr ")") with false.
      change (negb (chr "," =? chr ",")) with false. cbv iota.
      now rewrite (bind_eq _ _ _ _ _ Hnext). }
    destruct (IH (Acc ++ [Arg])) as [IH1 IH2].
    rewrite <- app_assoc in IH1. cbn [app] in IH1. split.
    + intros Hc. destruct (IH1 Hc) as [m Hm]. exists (S (Nat.max n m)).
      rewrite Hstep by lia. apply (ParseArgs_le m); [exact Hm|lia].
    + intros H1 H2. destruct (IH2 H1 H2) as [m Hm]. exists (S (Nat.max n m)).
      rewrite Hstep by lia. apply (ParseArgs_le m); [exact Hm|lia].
Qed.

Lemma fail_inv_bind {A B} (m : M A) (k : A -> M (option B)) :
  (forall a, fail_inv (k a)) -> fail_inv (bind m k).
Proof.
  intros Hk s s'. unfold bind. destruct (m s) as [[a s1]|]; [|discriminate].
  apply Hk.
Qed.

Lemma fail_inv_bind_opt {A B} (m : M (option A)) (k : A -> M (option B)) :
  fail_inv m -> (forall a, fail_inv (k a)) ->
  fail_inv (bind m (fun V => match V with
                             | None => ret None
                             | Some a => k a
                             end)).
Proof.
  intros Hm Hk s s'. unfold bind.
  destruct (m s) as [[[a|] s1]|] eqn:E; [apply Hk| |discriminate].
  unfold ret. intros H. injection H as <-. exact (Hm _ _ E).
Qed.

Lemma fail_inv_ext {A} (m m' : M (option A)) :
  (forall s, m s = m' s) -> fail_inv m' -> fail_inv m.
Proof. intros E H s s'. rewrite E. apply H. Qed.

Lemma fail_inv_ret_Some {A} (a : A) : fail_inv (ret (Some a)).
Proof. intros s s' H. discriminate. Qed.

Lemma fail_inv_LogError_other (Str : string) :
  error_line Str <> error_line args_error -> fail_inv (LogError Str).
Proof.
  intros Hne s s' H. unfold LogError in H. injection H as <-.
  intros Hlast. cbn [set_stderr stderr] in Hlast.
  rewrite last_snoc in Hlast. congruence.
Qed.

Ltac fail_inv_step :=
  first
    [ assumption
    | apply fail_inv_ret_Some
    | apply fail_inv_LogError_other; vm_compute; discriminate
    | apply fail_inv_bind_opt; [|intros ?]
    | apply fail_inv_bind; intros ?
    | match goal with
      | |- fail_inv (if ?b then _ else _) => destruct b
      | H : forall _, fail_inv _ |- _ => apply H
      | H : forall _ _, fail_inv _ |- _ => apply H
      end ].

Lemma fail_inv_ParseArgs_step (n : nat) (Acc : list ExprAST) :
  fail_inv (ParseExpression n) ->
  (forall Acc', fail_inv (ParseArgs n Acc')) ->
  fail_inv (ParseArgs (S n) Acc).
Proof.
  intros HE HA. rewrite ParseArgs_S. apply fail_inv_bind_opt; [exact HE|].
  intros Arg s s'. unfold bind at 1, get.
  destruct (CurTok s =? chr ")") eqn:E1; [discriminate|].
  destruct (CurTok s =? chr ",") eqn:E2; cbn [negb].
  - apply fail_inv_bind. intros _. apply HA.
  - unfold bind, LogError, ret. intros H. injection H as <-.
    intros _. cbn [CurTok set_stderr]. apply Z.eqb_neq in E1, E2. now split.
Qed.

Lemma Parse_failure_token (n : nat) :
  fail_inv (ParsePrimary n) /\
  fail_inv (ParseParenExpr n) /\
  fail_inv (ParseIdentifierExpr n) /\
  (forall Args, fail_inv (ParseArgs n Args)) /\
  fail_inv (ParseExpression n) /\
  (forall ExprPrec LHS, fail_inv (ParseBinOpRHS n ExprPrec LHS)).
Proof.
  induction n as [|n (IH1 & IH2 & IH3 & IH4 & IH5 & IH6)].
  - repeat apply conj; intros; intros s s' H; discriminate.
  - repeat apply conj; intros.
    + rewrite ParsePrimary_S. unfold ParseNumberExpr. repeat fail_inv_step.
    + rewrite ParseParenExpr_S. apply fail_inv_bind. intros _.
      repeat fail_inv_step.
    + rewrite ParseIdentifierExpr_S. do 3 (apply fail_inv_bind; intros ?).
      destruct (negb (a1 =? chr "(")); [apply fail_inv_ret_Some|].
      do 2 (apply fail_inv_bind; intros ?).
      apply fail_inv_bind_opt; [|intros ?; repeat fail_inv_step].
      destruct (negb (a3 =? chr ")")); [apply IH4|apply fail_inv_ret_Some].
    + apply fail_inv_ParseArgs_step; assumption.
    + rewrite ParseExpression_S. repeat fail_inv_step.
    + eapply fail_inv_ext; [apply ParseBinOpRHS_S|].
      apply fail_inv_bind. intros TokPrec.
      destruct (TokPrec <? ExprPrec); [apply fail_inv_ret_Some|].
      do 2 (apply fail_inv_bind; intros ?).
      repeat fail_inv_step.
Qed.

Lemma ParseIdentifierExpr_call (n : nat) (s : State) (t : Z) (s0 : State) (t1 : Z)
      (s1 : State) :
  getNextToken s = Some (t, s0) -> CurTok s0 = chr "(" ->
  getNextToken s0 = Some (t1, s1) ->
  ParseIdentifierExpr (S n) s =
  (Args <- (if negb (CurTok s1 =? chr ")") then ParseArgs n [] else ret (Some [])) ;;
   match Args with
   | None => ret None
   | Some Args => getNextToken ;;; ret (Some (CallExprAST (IdentifierStr s) Args))
   end) s1.
Proof.
  intros H0 Hparen H1. rewrite ParseIdentifierExpr_S.
  unfold bind at 1, get. rewrite (bind_eq _ _ _ _ _ H0).
  unfold bind at 1, get. rewrite Hparen.
  change (negb (chr "(" =? chr "(")) with false. cbv iota.
  rewrite (bind_eq _ _ _ _ _ H1). reflexivity.
Qed.

(** X15: [ParseIdentifierExpr] names its node by the text that
    [IdentifierStr] holds when it is entered -- whatever [gettok] left there,
    which need not be the spelling of the identifier.  After the identifier
    has been consumed it returns a [VariableExprAST] with that text when the
    current token is not ['(']; on ["()"] it returns a call without arguments; and when
    arguments follow, parsed one after the other with a [','] between them,
    it returns on [')'] the [CallExprAST] holding them in the order parsed,
    and fails with "Expected ')' or ',' in argument list" when the token
    after an argument is neither [')'] nor [','].  Conversely, whenever it
    returns [nullptr] with that message as the last one logged, the token it
    stopped at is neither [')'] nor [',']. *)
Theorem ParseIdentifierExpr_variable_or_call :
  (forall (n : nat) (s : State) (t : Z) (s0 : State),
      getNextToken s = Some (t, s0) -> CurTok s0 <> chr "(" ->
      ParseIdentifierExpr (S n) s =
      Some (Some (VariableExprAST (IdentifierStr s)), s0))
  /\ (forall (n : nat) (s : State) (t : Z) (s0 : State) (t1 : Z) (s1 : State)
             (t2 : Z) (s2 : State),
        getNextToken s = Some (t, s0) -> CurTok s0 = chr "(" ->
        getNextToken s0 = Some (t1, s1) -> CurTok s1 = chr ")" ->
        getNextToken s1 = Some (t2, s2) ->
        ParseIdentifierExpr (S n) s =
        Some (Some (CallExprAST (IdentifierStr s) []), s2))
  /\ (forall (s : State) (t : Z) (s0 : State) (t1 : Z) (s1 : State)
             (Args : list ExprAST) (s' : State),
        getNextToken s = Some (t, s0) -> CurTok s0 = chr "(" ->
        getNextToken s0 = Some (t1, s1) -> CurTok s1 <> chr ")" ->
        argument_list s1 Args s' ->
        (CurTok s' = chr ")" ->
         exists s'', getNextToken s' = Some (CurTok s'', s'')
                     /\ runs ParseIdentifierExpr s
                          (Some (CallExprAST (IdentifierStr s) Args), s''))
        /\ (CurTok s' <> chr ")" -> CurTok s' <> chr "," ->
            runs ParseIdentifierExpr s (None, logged args_error s')))
  /\ (forall (n : nat) (s s' : State),
        ParseIdentifierExpr n s = Some (None, s') ->
        last (stderr s') = Some (error_line args_error) ->
        CurTok s' <> chr ")" /\ CurTok s' <> chr ",").
Proof.
  split; [|split; [|split]].
  - intros n s t s0 H0 Hne. rewrite ParseIdentifierExpr_S.
    unfold bind at 1, get. rewrite (bind_eq _ _ _ _ _ H0).
    unfold bind at 1, get. apply Z.eqb_neq in Hne. now rewrite Hne.
  - intros n s t s0 t1 s1 t2 s2 H0 Hp H1 Hc H2.
    rewrite (ParseIdentifierExpr_call n s t s0 t1 s1 H0 Hp H1).
    rewrite Hc. change (negb (chr ")" =? chr ")")) with false. cbv iota.
    unfold bind at 1, ret at 1. now rewrite (bind_eq _ _ _ _ _ H2).
  - intros s t s0 t1 s1 Args s' H0 Hp H1 Hc Hargs.
    destruct (ParseArgs_argument_list s1 Args s' Hargs []) as [Hok Hfail].
    assert (Hstep : forall n, ParseIdentifierExpr (S n) s =
              (Args <- ParseArgs n [] ;;
               match Args with
               | None => ret None
               | Some Args =>
                   getNextToken ;;; ret (Some (CallExprAST (IdentifierStr s) Args))
               end) s1).
    { intros n. rewrite (ParseIdentifierExpr_call n s t s0 t1 s1 H0 Hp H1).
      apply Z.eqb_neq in Hc. now rewrite Hc. }
    split.
    + intros Hclose. destruct (Hok Hclose) as [n Hn].
      destruct (getNextToken_total s') as [s'' H2].
      exists s''. split; [exact H2|]. exists (S n).
      rewrite Hstep, (bind_eq _ _ _ _ _ Hn). cbn [app].
      now rewrite (bind_eq _ _ _ _ _ H2).
    + intros Hn1 Hn2. destruct (Hfail Hn1 Hn2) as [n Hn].
      exists (S n). now rewrite Hstep, (bind_eq _ _ _ _ _ Hn).
  - intros n s s' H. exact (proj1 (proj2 (proj2 (Parse_failure_token n))) s s' H).
Qed.

(** C7 (what the program does): the node does not carry the identifier's
    name.  [ParseIdentifierExpr] copies [IdentifierStr], and [gettok] leaves
    there the letters and digits after the first character of every identifier
    read so far: "x" gives the variable "", "abc+1" the variable "bc", and
    "foo(1, bar(2,3))" the call of "oo" whose second argument is a call of
    "ooar".  The arguments themselves are collected in source order. *)
Theorem ParseIdentifierExpr_name_lacks_first_letter (n : nat) :
  (CurTok (at_first_token "x") = tok_identifier
   /\ option_map fst (ParseIdentifierExpr (n + 20) (at_first_token "x")) =
      Some (Some (VariableExprAST "")))
  /\ option_map fst (ParseIdentifierExpr (n + 20) (at_first_token "abc+1")) =
     Some (Some (VariableExprAST "bc"))
  /\ option_map fst
       (ParseIdentifierExpr (n + 20) (at_first_token "foo(1, bar(2,3))")) =
     Some (Some (CallExprAST "oo"
                   [NumberExprAST (strtod "1");
                    CallExprAST "ooar"
                      [NumberExprAST (strtod "2"); NumberExprAST (strtod "3")]]))
  /\ parse_result (n + 20) "foo(1, bar(2,3))" =
     Some (Some (CallExprAST "oo"
                   [NumberExprAST (strtod "1");
                    CallExprAST "ooar"
                      [NumberExprAST (strtod "2"); NumberExprAST (strtod "3")]])).
Proof.
  assert (Hfuel : forall text r,
             option_map fst (ParseIdentifierExpr 20 (at_first_token text)) = Some r ->
             option_map fst (ParseIdentifierExpr (n + 20) (at_first_token text)) =
             Some r).
  { intros text r.
    destruct (ParseIdentifierExpr 20 (at_first_token text)) as [[a s]|] eqn:E;
      [|discriminate].
    intros H.
    now rewrite (proj1 (proj2 (proj2 (Parse_fuel_le 20 (n + 20) ltac:(lia)))) _ _ E). }
  repeat apply conj.
  - vm_compute. reflexivity.
  - apply Hfuel. vm_compute. reflexivity.
  - apply Hfuel. vm_compute. reflexivity.
  - apply Hfuel. vm_compute. reflexivity.
  - apply parse_result_fuel. vm_compute. reflexivity.
Qed.

(** ** The precedence table *)

Lemma table_extends_refl (m : gmap Z Z) : table_extends m m.
Proof. intros k. now left. Qed.

Lemma table_extends_trans (m1 m2 m3 : gmap Z Z) :
  table_extends m1 m2 -> table_extends m2 m3 -> table_extends m1 m3.
Proof.
  intros H12 H23 k. destruct (H12 k) as [E|[E1 E2]], (H23 k) as [F|[F1 F2]].
  - left. congruence.
  - right. split; congruence.
  - right. split; congruence.
  - congruence.
Qed.

Lemma table_extends_subscript (m : gmap Z Z) (k : Z) :
  table_extends m (snd (map_subscript m k)).
Proof.
  unfold map_subscript. destruct (m !! k) eqn:E; [apply table_extends_refl|].
  intros j. cbn [snd]. destruct (decide (k = j)) as [->|Hne].
  - right. now rewrite lookup_insert_eq.
  - left. now rewrite lookup_insert_ne.
Qed.

Lemma table_extends_same (m m' : gmap Z Z) :
  table_extends m m' -> same_precedences m' m.
Proof.
  intros H k. unfold map_subscript.
  destruct (H k) as [E|[E1 E2]].
  - rewrite E. now destruct (m !! k).
  - now rewrite E1, E2.
Qed.

Lemma frame_bind {A B} (m : M A) (k : A -> M B) :
  frame m -> (forall a, frame (k a)) -> frame (bind m k).
Proof.
  intros Hm Hk s b s'. unfold bind.
  destruct (m s) as [[a s1]|] eqn:E; [|discriminate].
  intros H. eapply table_extends_trans; [exact (Hm _ _ _ E)|exact (Hk _ _ _ _ H)].
Qed.

Lemma frame_ext {A} (m m' : M A) :
  (forall s, m s = m' s) -> frame m' -> frame m.
Proof. intros E H s a s'. rewrite E. apply H. Qed.

Lemma frame_ret {A} (a : A) : frame (ret a).
Proof. intros s b s' H. injection H as _ <-. apply table_extends_refl. Qed.

Lemma frame_get {A} (f : State -> A) : frame (get f).
Proof. intros s b s' H. injection H as _ <-. apply table_extends_refl. Qed.

Lemma frame_out_of_fuel {A} : frame (@out_of_fuel A).
Proof. intros s b s' H. discriminate. Qed.

Lemma frame_LogError (Str : string) : frame (LogError Str).
Proof. intros s b s' H. injection H as _ <-. apply table_extends_refl. Qed.

(** The lexer does not touch the table at all. *)
Lemma gettok_fuel_table (n : nat) :
  forall s t s', gettok_fuel n s = Some (t, s') ->
                 BinopPrecedence s' = BinopPrecedence s.
Proof.
  induction n as [|n IH]; intros s t s' H; [discriminate|].
  cbn [gettok_fuel] in H.
  destruct (skip_whitespace (LastChar s) (stdin s)) as [c inp].
  destruct (isalpha c).
  { destruct (read_identifier (IdentifierStr s) inp) as [[id c'] inp'].
    destruct (String.eqb id "def"); [now injection H as _ <-|].
    destruct (String.eqb id "extern"); now injection H as _ <-. }
  destruct (isdigit c || (c =? chr "."))%bool.
  { destruct (read_number EmptyString c inp) as [[NumStr c'] inp'].
    now injection H as _ <-. }
  assert (Hrest : forall s0 t0 s0', gettok_rest s0 = (t0, s0') ->
                    BinopPrecedence s0' = BinopPrecedence s0).
  { intros s0 t0 s0'. unfold gettok_rest.
    destruct (LastChar s0 =? EOF); [now intros [= _ <-]|].
    destruct (getchar (stdin s0)) as [c0 inp0]. now intros [= _ <-]. }
  destruct (c =? chr "#").
  - destruct (skip_comment inp) as [c' inp'].
    destruct (negb (c' =? EOF)).
    + now rewrite (IH _ _ _ H).
    + injection H as H. now rewrite (Hrest _ _ _ H).
  - injection H as H. now rewrite (Hrest _ _ _ H).
Qed.

Lemma frame_getNextToken : frame getNextToken.
Proof.
  intros s t s'. unfold getNextToken, gettok.
  destruct (gettok_fuel _ s) as [[t0 s0]|] eqn:E; [|discriminate].
  intros [= _ <-]. cbn [BinopPrecedence set_CurTok].
  rewrite (gettok_fuel_table _ _ _ _ E). apply table_extends_refl.
Qed.

Lemma GetTokPrecedence_eq (s : State) :
  GetTokPrecedence s =
  if negb (isascii (CurTok s)) then Some (-1, s)
  else
    let v := fst (map_subscript (BinopPrecedence s) (CurTok s)) in
    Some (if v <=? 0 then -1 else v,
          set_BinopPrecedence s (snd (map_subscript (BinopPrecedence s) (CurTok s)))).
Proof.
  unfold GetTokPrecedence. destruct (negb (isascii (CurTok s))); [reflexivity|].
  destruct (map_subscript (BinopPrecedence s) (CurTok s)) as [v m]. cbn [fst snd].
  destruct (v <=? 0); reflexivity.
Qed.

Lemma frame_GetTokPrecedence : frame GetTokPrecedence.
Proof.
  intros s p s'. rewrite GetTokPrecedence_eq.
  destruct (negb (isascii (CurTok s))).
  - intros [= _ <-]. apply table_extends_refl.
  - cbv zeta. intros [= _ <-]. apply table_extends_subscript.
Qed.

Ltac frame_step :=
  first
    [ assumption
    | apply frame_ret
    | apply frame_get
    | apply frame_LogError
    | apply frame_getNextToken
    | apply frame_GetTokPrecedence
    | apply frame_bind; [|intros ?]
    | match goal with
      | |- frame (if ?b then _ else _) => destruct b
      | |- frame (match ?o with Some _ => _ | None => _ end) => destruct o
      | H : forall _, frame _ |- _ => apply H
      | H : forall _ _, frame _ |- _ => apply H
      end ].

Lemma Parse_frame (n : nat) :
  frame (ParsePrimary n) /\
  frame (ParseParenExpr n) /\
  frame (ParseIdentifierExpr n) /\
  (forall Args, frame (ParseArgs n Args)) /\
  frame (ParseExpression n) /\
  (forall ExprPrec LHS, frame (ParseBinOpRHS n ExprPrec LHS)).
Proof.
  induction n as [|n (IH1 & IH2 & IH3 & IH4 & IH5 & IH6)].
  - repeat apply conj; intros; apply frame_out_of_fuel.
  - repeat apply conj; intros.
    + rewrite ParsePrimary_S. unfold ParseNumberExpr. repeat frame_step.
    + rewrite ParseParenExpr_S. repeat frame_step.
    + rewrite ParseIdentifierExpr_S. repeat frame_step.
    + rewrite ParseArgs_S. repeat frame_step.
    + rewrite ParseExpression_S. repeat frame_step.
    + eapply frame_ext; [apply ParseBinOpRHS_S|]. repeat frame_step.
Qed.

Lemma frame_snd {A} (m : M A) (s s' : State) :
  frame m -> option_map snd (m s) = Some s' ->
  table_extends (BinopPrecedence s) (BinopPrecedence s').
Proof.
  intros Hm H. destruct (m s) as [[a s1]|] eqn:E; [|discriminate].
  injection H as <-. exact (Hm _ _ _ E).
Qed.

Lemma run_operation_frame (o : Operation) (s s' : State) :
  run_operation o s = Some s' ->
  table_extends (BinopPrecedence s) (BinopPrecedence s').
Proof.
  destruct o; cbn [run_operation]; intros H.
  - unfold gettok in H.
    destruct (gettok_fuel _ s) as [[t s1]|] eqn:E; [|discriminate].
    injection H as <-. rewrite (gettok_fuel_table _ _ _ _ E).
    apply table_extends_refl.
  - exact (frame_snd _ _ _ frame_getNextToken H).
  - exact (frame_snd _ _ _ frame_GetTokPrecedence H).
  - exact (frame_snd _ _ _ (frame_LogError Str) H).
  - refine (frame_snd _ _ _ _ H). unfold ParseNumberExpr. repeat frame_step.
  - exact (frame_snd _ _ _ (proj1 (proj2 (Parse_frame fuel))) H).
  - exact (frame_snd _ _ _ (proj1 (proj2 (proj2 (Parse_frame fuel)))) H).
  - exact (frame_snd _ _ _ (proj1 (Parse_frame fuel)) H).
  - exact (frame_snd _ _ _ (proj1 (proj2 (proj2 (proj2 (proj2 (Parse_frame fuel)))))) H).
  - exact (frame_snd _ _ _
             (proj2 (proj2 (proj2 (proj2 (proj2 (Parse_frame fuel))))) ExprPrec LHS) H).
Qed.

Lemma run_operations_frame (ops : list Operation) :
  forall s s', run_operations ops s = Some s' ->
               table_extends (BinopPrecedence s) (BinopPrecedence s').
Proof.
  induction ops as [|o ops IH]; intros s s' H; cbn [run_operations] in H.
  - injection H as <-. apply table_extends_refl.
  - destruct (run_operation o s) as [s1|] eqn:E; [|discriminate].
    eapply table_extends_trans; [exact (run_operation_frame _ _ _ E)|exact (IH _ _ H)].
Qed.

Lemma GetTokPrecedence_same (s s' : State) (tok : Z) :
  same_precedences (BinopPrecedence s') (BinopPrecedence s) ->
  option_map fst (GetTokPrecedence (set_CurTok s' tok)) =
  option_map fst (GetTokPrecedence (set_CurTok s tok)).
Proof.
  intros H. rewrite !GetTokPrecedence_eq. cbn [CurTok BinopPrecedence set_CurTok].
  destruct (negb (isascii tok)); [reflexivity|]. cbv zeta. cbn [option_map fst].
  now rewrite (H tok).
Qed.


(** The table that [main] builds, key by key. *)
Lemma main_table_lookup (inp : list ascii) (k : Z) :
  BinopPrecedence (main (initial inp)) !! k =
  if decide (k = chr "*") then Some 40
  else if decide (k = chr "-") then Some 30
  else if decide (k = chr "+") then Some 20
  else if decide (k = chr "<") then Some 10
  else None.
Proof.
  unfold main, initial. cbn [BinopPrecedence set_BinopPrecedence].
  repeat (case_decide; [subst k; now rewrite ?lookup_insert_eq|
                         rewrite lookup_insert_ne by congruence]).
  apply lookup_empty.
Qed.

Lemma GetTokPrecedence_initialised (s : State) :
  same_precedences (BinopPrecedence s) (BinopPrecedence (main (initial []))) ->
  option_map fst (GetTokPrecedence s) =
  Some (if decide (CurTok s = chr "*") then 40
        else if decide (CurTok s = chr "-") then 30
        else if decide (CurTok s = chr "+") then 20
        else if decide (CurTok s = chr "<") then 10
        else -1).
Proof.
  intros H. rewrite GetTokPrecedence_eq.
  destruct (negb (isascii (CurTok s))) eqn:E.
  - cbn [option_map fst].
    repeat (case_decide as Hd; [rewrite Hd in E; vm_compute in E; discriminate|clear Hd]).
    reflexivity.
  - cbv zeta. cbn [option_map fst]. rewrite (H (CurTok s)).
    unfold map_subscript at 1 2. rewrite main_table_lookup.
    repeat (case_decide; [reflexivity|]). reflexivity.
Qed.

(** A tree returned by the operator loop contains the tree it was given. *)
Lemma ParseBinOpRHS_size (n : nat) :
  forall ExprPrec LHS s R s',
    ParseBinOpRHS n ExprPrec LHS s = Some (Some R, s') ->
    (binary_size LHS <= binary_size R)%nat.
Proof.
  induction n as [|n IH]; intros p L s R s' H; [discriminate|].
  rewrite ParseBinOpRHS_S in H. unfold bind, get, ret in H.
  destruct (GetTokPrecedence s) as [[TokPrec s1]|]; [|discriminate].
  destruct (TokPrec <? p).
  { injection H as -> _. lia. }
  destruct (getNextToken s1) as [[t s2]|]; [|discriminate].
  destruct (ParsePrimary n s2) as [[[RHS|] s3]|]; try discriminate.
  destruct (GetTokPrecedence s3) as [[NextPrec s4]|]; [|discriminate].
  apply IH in H. cbn [binary_size] in H. lia.
Qed.

(** C5: with the table that [main] builds (and whatever zero entries
    look-ups have left in it), [GetTokPrecedence] returns 10 for ['<'], 20 for
    ['+'], 30 for ['-'], 40 for ['*'] and -1 for every other value of
    [CurTok], ASCII or not; and the operator loop of [ParseBinOpRHS] stops,
    returning its left-hand side unchanged, exactly when that result is
    below [ExprPrec]. *)
Theorem GetTokPrecedence_and_loop_exit :
  (forall s : State,
      same_precedences (BinopPrecedence s) (BinopPrecedence (main (initial []))) ->
      (CurTok s = chr "<" -> option_map fst (GetTokPrecedence s) = Some 10)
      /\ (CurTok s = chr "+" -> option_map fst (GetTokPrecedence s) = Some 20)
      /\ (CurTok s = chr "-" -> option_map fst (GetTokPrecedence s) = Some 30)
      /\ (CurTok s = chr "*" -> option_map fst (GetTokPrecedence s) = Some 40)
      /\ (CurTok s <> chr "<" -> CurTok s <> chr "+" -> CurTok s <> chr "-" ->
          CurTok s <> chr "*" ->
          option_map fst (GetTokPrecedence s) = Some (-1)))
  /\ (forall (n : nat) (ExprPrec : Z) (LHS : ExprAST) (s : State) (TokPrec : Z)
             (s1 : State),
        GetTokPrecedence s = Some (TokPrec, s1) ->
        (TokPrec < ExprPrec ->
         ParseBinOpRHS (S n) ExprPrec LHS s = Some (Some LHS, s1))
        /\ ((exists s', ParseBinOpRHS (S n) ExprPrec LHS s = Some (Some LHS, s')) ->
            TokPrec < ExprPrec)
        /\ (ExprPrec <= TokPrec ->
            ParseBinOpRHS (S n) ExprPrec LHS s =
            (getNextToken ;;;
             RHS <- ParsePrimary n ;;
             match RHS with
             | None => ret None
             | Some RHS =>
                 GetTokPrecedence ;;;
                 ParseBinOpRHS n ExprPrec (BinaryExprAST (to_char (CurTok s1)) LHS RHS)
             end) s1)).
Proof.
  split.
  - intros s H. pose proof (GetTokPrecedence_initialised s H) as E.
    repeat apply conj.
    1-4: intros Hc; rewrite E, Hc; reflexivity.
    intros H1 H2 H3 H4. rewrite E.
    repeat (case_decide; [congruence|]). reflexivity.
  - intros n p L s TokPrec s1 H. split; [|split].
    + intros Hlt. rewrite ParseBinOpRHS_S, (bind_eq _ _ _ _ _ H).
      apply Z.ltb_lt in Hlt. now rewrite Hlt.
    + intros [s' Hs']. destruct (Z.ltb_spec TokPrec p) as [Hlt|Hge]; [exact Hlt|].
      exfalso. rewrite ParseBinOpRHS_S, (bind_eq _ _ _ _ _ H) in Hs'.
      apply Z.ltb_ge in Hge. rewrite Hge in Hs'. unfold bind, get in Hs'.
      destruct (getNextToken s1) as [[t s2]|]; [|discriminate].
      destruct (ParsePrimary n s2) as [[[RHS|] s3]|]; try discriminate.
      destruct (GetTokPrecedence s3) as [[NextPrec s4]|]; [|discriminate].
      apply ParseBinOpRHS_size in Hs'. cbn [binary_size] in Hs'. lia.
    + intros Hge. rewrite ParseBinOpRHS_S, (bind_eq _ _ _ _ _ H).
      apply Z.ltb_ge in Hge. now rewrite Hge.
Qed.

(** ** Operator chains *)

(** Whatever the precedences in the chain, the loop combines the operands
    from left to right. *)
Lemma ParseBinOpRHS_left_nested (ExprPrec : Z) (s : State)
      (chain : list (ascii * Z * ExprAST)) (s' : State) :
  operator_chain ExprPrec s chain s' ->
  forall LHS,
    runs (fun n => ParseBinOpRHS n ExprPrec LHS) s (Some (left_nested LHS chain), s').
Proof.
  induction 1 as [s TokPrec s1 H Hlt
                 |s TokPrec s1 t s2 RHS s3 NextPrec s4 chain s' H Hge H2 [n Hn] H4 Hrest IH];
    intros LHS.
  - exists 1%nat. rewrite ParseBinOpRHS_S, (bind_eq _ _ _ _ _ H).
    apply Z.ltb_lt in Hlt. now rewrite Hlt.
  - destruct (IH (BinaryExprAST (to_char (CurTok s1)) LHS RHS)) as [m Hm].
    exists (S (Nat.max n m)).
    rewrite ParseBinOpRHS_S, (bind_eq _ _ _ _ _ H).
    apply Z.ltb_ge in Hge. rewrite Hge.
    unfold bind at 1, get. rewrite (bind_eq _ _ _ _ _ H2).
    rewrite (bind_eq _ _ _ _ _ (ParsePrimary_le n (Nat.max n m) _ _ Hn (Nat.le_max_l _ _))).
    rewrite (bind_eq _ _ _ _ _ H4).
    apply (ParseBinOpRHS_le m); [exact Hm|lia].
Qed.

(** C4: a chain of operators of equal precedence is parsed
    left-associatively: the operands are combined from left to right, and
    "1-2-3" gives the tree of (1-2)-3. *)
Theorem equal_precedence_left_associative :
  (forall (ExprPrec : Z) (s : State) (chain : list (ascii * Z * ExprAST))
          (s' : State) (prec : Z) (LHS : ExprAST),
      operator_chain ExprPrec s chain s' ->
      Forall (fun x => snd (fst x) = prec) chain ->
      runs (fun n => ParseBinOpRHS n ExprPrec LHS) s
        (Some (left_nested LHS chain), s'))
  /\ (forall (LHS : ExprAST) (op1 op2 : ascii) (prec : Z) (r1 r2 : ExprAST),
        left_nested LHS [(op1, prec, r1); (op2, prec, r2)] =
        BinaryExprAST op2 (BinaryExprAST op1 LHS r1) r2)
  /\ (forall n : nat,
        parse_result (n + 10) "1-2-3" =
        Some (Some (BinaryExprAST "-"
                      (BinaryExprAST "-" (NumberExprAST (strtod "1"))
                                         (NumberExprAST (strtod "2")))
                      (NumberExprAST (strtod "3"))))).
Proof.
  split; [|split].
  - intros p s chain s' prec LHS H _. now apply ParseBinOpRHS_left_nested.
  - reflexivity.
  - intros n. apply parse_result_fuel. vm_compute. reflexivity.
Qed.

(** C3 (what the program does): the first character of an identifier is
    consumed but never stored and [IdentifierStr] is never cleared, so the
    text compared with "def" and "extern" is not the text just read: "def"
    comes back as [tok_identifier] with [IdentifierStr] = "ef", and in
    "ab cd" the second identifier leaves [IdentifierStr] = "bd". *)
Theorem gettok_def_is_identifier :
  gettok (initial (list_ascii_of_string "def")) =
  Some (tok_identifier, set_IdentifierStr (with_pending (initial []) []) "ef")
  /\ (exists s1,
        gettok (initial (list_ascii_of_string "ab cd")) = Some (tok_identifier, s1)
        /\ IdentifierStr s1 = "b"%string
        /\ option_map (fun r => (fst r, IdentifierStr (snd r))) (gettok s1) =
           Some (tok_identifier, "bd"%string)).
Proof.
  split; [reflexivity|]. eexists. split; [reflexivity|]. split; reflexivity.
Qed.

(** ** The shape of the pending characters *)

Lemma pending_with_pending (s : State) (u : list ascii) :
  pending (with_pending s u) = u.
Proof.
  unfold pending, with_pending. cbn [LastChar stdin set_lexer].
  destruct u as [|c u]; [reflexivity|].
  cbn [lookahead tail]. now rewrite chr_not_EOF, to_char_chr.
Qed.

Lemma trivia_app (tr1 tr2 : list ascii) :
  trivia tr1 -> trivia tr2 -> trivia (tr1 ++ tr2).
Proof.
  induction 1 as [|a u Ha Hu IH|body nl u Hb Hnl Hu IH]; intros H2.
  - exact H2.
  - cbn [app]. apply trivia_space; auto.
  - cbn [app]. rewrite <- app_assoc. cbn [app]. apply trivia_comment; auto.
Qed.

(** A list splits into its longest prefix of characters of a class and a
    rest that does not start with one. *)
Lemma span_class (P : ascii -> bool) (u : list ascii) :
  exists run v, u = run ++ v /\ forallb P run = true
                /\ (v = [] \/ exists c r, v = c :: r /\ P c = false).
Proof.
  induction u as [|a u (run & v & -> & Hrun & Hv)].
  - exists [], []. auto.
  - destruct (P a) eqn:E.
    + exists (a :: run), v. cbn [app forallb]. rewrite E, Hrun. auto.
    + exists [], (a :: run ++ v). repeat split; eauto.
Qed.

Lemma span_lookahead (P : ascii -> bool) (Q : Z -> bool) (u : list ascii) :
  Q EOF = false -> (forall c, Q (chr c) = P c) ->
  exists run v, u = run ++ v /\ forallb P run = true /\ Q (lookahead v) = false.
Proof.
  intros HE HQ. destruct (span_class P u) as (run & v & -> & Hrun & Hv).
  exists run, v. repeat split; [exact Hrun|].
  destruct Hv as [->|(c & r & -> & Hc)]; [exact HE|].
  cbn [lookahead]. now rewrite HQ.
Qed.

Lemma lexeme_shape_space (a : ascii) (u : list ascii) :
  space_char a = true -> lexeme_shape u -> lexeme_shape (a :: u).
Proof.
  intros Ha H. destruct H as [tr Htr|tr body Htr Hb|tr c run v Htr Hc Hrun Hv
                             |tr c run v Htr Hc Hrun Hv|tr c v Htr Hc].
  - apply shape_end. now apply trivia_space.
  - apply (shape_open_comment (a :: tr)); [now apply trivia_space|exact Hb].
  - apply (shape_identifier (a :: tr)); auto using trivia_space.
  - apply (shape_number (a :: tr)); auto using trivia_space.
  - apply (shape_other (a :: tr)); auto using trivia_space.
Qed.

Lemma lexeme_shape_comment (body : list ascii) (nl : ascii) (u : list ascii) :
  comment_body body = true -> line_end nl = true ->
  lexeme_shape u -> lexeme_shape ("#"%char :: body ++ nl :: u).
Proof.
  intros Hb Hnl H.
  assert (Hpre : forall tr rest, trivia tr ->
            "#"%char :: body ++ nl :: tr ++ rest =
            ("#"%char :: body ++ nl :: tr) ++ rest
            /\ trivia ("#"%char :: body ++ nl :: tr)).
  { intros tr rest Htr. split; [|now apply trivia_comment].
    cbn [app]. now rewrite <- app_assoc. }
  destruct H as [tr Htr|tr body' Htr Hb'|tr c run v Htr Hc Hrun Hv
                |tr c run v Htr Hc Hrun Hv|tr c v Htr Hc].
  - apply shape_end. now apply trivia_comment.
  - destruct (Hpre tr ("#"%char :: body') Htr) as [-> Htr'].
    now apply shape_open_comment.
  - destruct (Hpre tr (c :: run ++ v) Htr) as [-> Htr'].
    now apply shape_identifier.
  - destruct (Hpre tr (c :: run ++ v) Htr) as [-> Htr'].
    now apply shape_number.
  - destruct (Hpre tr (c :: v) Htr) as [-> Htr'].
    now apply shape_other.
Qed.

(** Whatever is pending has one of the five shapes. *)
Lemma lexeme_shape_total (u : list ascii) : lexeme_shape u.
Proof.
  remember (length u) as n eqn:Hn. revert u Hn.
  induction n as [n IH] using lt_wf_ind. intros u Hn.
  destruct u as [|a u]; [apply shape_end, trivia_nil|].
  cbn [length] in Hn.
  destruct (space_char a) eqn:Hs.
  { apply lexeme_shape_space; [exact Hs|]. apply (IH (length u)); [lia|reflexivity]. }
  destruct (alpha_char a) eqn:Ha.
  { destruct (span_lookahead alnum_char isalnum u) as (run & v & -> & Hrun & Hv);
      [reflexivity|reflexivity|].
    now apply (shape_identifier []); [apply trivia_nil| | |]. }
  destruct (number_char a) eqn:Hd.
  { destruct (span_lookahead number_char number_start u) as (run & v & -> & Hrun & Hv);
      [reflexivity|reflexivity|].
    now apply (shape_number []); [apply trivia_nil| | |]. }
  destruct (chr a =? chr "#") eqn:Hh.
  - apply Z.eqb_eq, chr_inj in Hh. subst a.
    destruct (span_class (fun a => negb (line_end a)) u) as (body & v & -> & Hb & Hv).
    destruct Hv as [->|(nl & r & -> & Hnl)].
    + rewrite app_nil_r. now apply (shape_open_comment []); [apply trivia_nil|].
    + apply negb_false_iff in Hnl. apply lexeme_shape_comment; [exact Hb|exact Hnl|].
      apply (IH (length r)); [|reflexivity].
      rewrite Hn, length_app. cbn [length]. lia.
  - apply (shape_other []); [apply trivia_nil|].
    unfold other_char. now rewrite Hs, Ha, Hd, Hh.
Qed.

(** ** What [gettok] reads, and what it does not look at *)

Lemma gettok_all_trivia (s : State) (tr : list ascii) :
  trivia tr -> gettok (with_pending s tr) = Some (tok_eof, with_pending s []).
Proof.
  intros Htr. rewrite <- (app_nil_r tr), (gettok_trivia s tr [] Htr).
  reflexivity.
Qed.

Lemma comment_body_app (b1 b2 : list ascii) :
  comment_body b1 = true -> comment_body b2 = true -> comment_body (b1 ++ b2) = true.
Proof. unfold comment_body. intros H1 H2. now rewrite forallb_app, H1, H2. Qed.

(** White space and comments after a comment that nothing has closed yet
    either close it or become part of it. *)
Lemma comment_absorbs_trivia (s : State) (tr : list ascii) :
  trivia tr ->
  forall body, comment_body body = true ->
    gettok (with_pending s ("#"%char :: body ++ tr)) = Some (tok_eof, with_pending s []).
Proof.
  induction 1 as [|a u Ha Hu IH|b2 nl u Hb2 Hnl Hu IH]; intros body Hb.
  - rewrite app_nil_r. apply (gettok_fuel_gettok 1), gettok_comment_eof, Hb.
  - destruct (line_end a) eqn:E.
    + apply gettok_all_trivia. now apply trivia_comment.
    + replace (body ++ a :: u) with ((body ++ [a]) ++ u)
        by (now rewrite <- app_assoc).
      apply IH, comment_body_app; [exact Hb|]. unfold comment_body.
      cbn [forallb]. now rewrite E.
  - replace (body ++ "#"%char :: b2 ++ nl :: u)
      with ((body ++ "#"%char :: b2) ++ nl :: u)
      by (now rewrite <- app_assoc).
    apply gettok_all_trivia. apply trivia_comment; [|exact Hnl|exact Hu].
    apply comment_body_app; [exact Hb|]. unfold comment_body in *.
    cbn [forallb]. now rewrite Hb2.
Qed.

(** Either [gettok] returns [tok_eof], and still does when white space and
    comments are appended to the input; or it returns a token read from a
    non-empty prefix [t] of what is pending, and returns the same token, with
    the same values, whatever follows [t], as long as the first character that
    follows ends the token as well. *)
Lemma gettok_cases (s : State) (u : list ascii) :
  (gettok (with_pending s u) = Some (tok_eof, with_pending s [])
   /\ forall tr, trivia tr ->
        gettok (with_pending s (u ++ tr)) = Some (tok_eof, with_pending s []))
  \/ (exists tok s1 t v,
        t <> [] /\ u = t ++ v
        /\ gettok (with_pending s u) = Some (tok, with_pending s1 v)
        /\ forall v2, compatible v v2 ->
             gettok (with_pending s (t ++ v2)) = Some (tok, with_pending s1 v2)).
Proof.
  destruct (lexeme_shape_total u) as [tr Htr|tr body Htr Hb|tr c run v Htr Hc Hrun Hv
                                     |tr c run v Htr Hc Hrun Hv|tr c v Htr Hc].
  - left. split; [now apply gettok_all_trivia|].
    intros tr' Htr'. now apply gettok_all_trivia, trivia_app.
  - left. split.
    + rewrite (gettok_trivia s tr _ Htr).
      apply (gettok_fuel_gettok 1), gettok_comment_eof, Hb.
    + intros tr' Htr'. rewrite <- app_assoc. cbn [app].
      rewrite (gettok_trivia s tr _ Htr). now apply comment_absorbs_trivia.
  - right.
    exists (identifier_token (IdentifierStr s ++ string_of_list_ascii run)),
      (set_IdentifierStr s (IdentifierStr s ++ string_of_list_ascii run)),
      (tr ++ c :: run), v.
    split; [now destruct tr|]. split; [now rewrite <- app_assoc|]. split.
    + now apply identifier_token_accumulates.
    + intros v2 Hv2. rewrite <- app_assoc. cbn [app].
      apply (identifier_token_accumulates s tr c run v2 Htr Hc Hrun).
      destruct Hv2 as [E|[E _]]; [now rewrite E|exact E].
  - right.
    exists tok_number, (set_NumVal s (strtod (string_of_list_ascii (c :: run)))),
      (tr ++ c :: run), v.
    split; [now destruct tr|]. split; [now rewrite <- app_assoc|]. split.
    + now apply gettok_number.
    + intros v2 Hv2. rewrite <- app_assoc. cbn [app].
      apply (gettok_number s tr c run v2 Htr Hc Hrun).
      destruct Hv2 as [E|[_ E]]; [now rewrite E|exact E].
  - right. exists (chr c), s, (tr ++ [c]), v.
    split; [now destruct tr|]. split; [now rewrite <- app_assoc|].
    assert (H : forall v', gettok (with_pending s (tr ++ c :: v')) =
                           Some (chr c, with_pending s v')).
    { intros v'. rewrite (gettok_trivia s tr _ Htr).
      apply (gettok_fuel_gettok 1), gettok_char_here, Hc. }
    split; [apply H|]. intros v2 _. rewrite <- app_assoc. apply H.
Qed.

(** ** Inserting white space and comments between two tokens *)

Lemma gettok_iter_end (k : nat) (s : State) :
  gettok_iter k (with_pending s []) = Some (with_pending s []).
Proof.
  induction k as [|k IH]; [reflexivity|].
  cbn [gettok_iter].
  change (gettok (with_pending s [])) with (Some (tok_eof, with_pending s [])).
  exact IH.
Qed.

Lemma lex_trace_step (m : nat) (s1 s2 : State) (t : Z) (s1' s2' : State) :
  gettok s1 = Some (t, s1') -> gettok s2 = Some (t, s2') ->
  IdentifierStr s1' = IdentifierStr s2' -> NumVal s1' = NumVal s2' ->
  (forall m, lex_trace m s1' = lex_trace m s2') ->
  lex_trace m s1 = lex_trace m s2.
Proof.
  intros H1 H2 Hid Hnum Hrest. destruct m as [|m]; [reflexivity|].
  cbn [lex_trace]. now rewrite H1, H2, Hid, Hnum, Hrest.
Qed.

Lemma trivia_compatible (tr v : list ascii) :
  trivia tr -> compatible v (tr ++ v).
Proof.
  intros Htr. destruct Htr as [|a u Ha Hu|body nl u Hb Hnl Hu].
  - now left.
  - right. cbn [app lookahead]. split; char_class.
  - right. cbn [app lookahead]. split; reflexivity.
Qed.

(** The tokens do not change when white space and comments [tr] are put
    where, at the start of some call of [gettok], only white space and
    comments [tr0] separate the lexer from the rest [post] of the input. *)
Lemma lex_trace_insert (k : nat) :
  forall (s : State) (u : list ascii) (s_k : State) (tr0 tr post : list ascii),
    trivia tr0 -> trivia tr ->
    gettok_iter k (with_pending s u) = Some s_k ->
    pending s_k = tr0 ++ post ->
    exists pre0,
      u = pre0 ++ tr0 ++ post
      /\ forall m, lex_trace m (with_pending s (pre0 ++ tr0 ++ tr ++ post)) =
                   lex_trace m (with_pending s u).
Proof.
  induction k as [|k IH]; intros s u s_k tr0 tr post Htr0 Htr Hk Hp.
  - cbn [gettok_iter] in Hk. injection Hk as <-.
    rewrite pending_with_pending in Hp. subst u.
    exists []. split; [reflexivity|]. intros m. cbn [app].
    destruct m as [|m]; [reflexivity|]. cbn [lex_trace].
    rewrite (gettok_trivia s tr0 _ Htr0), (gettok_trivia s tr _ Htr).
    now rewrite (gettok_trivia s tr0 _ Htr0).
  - cbn [gettok_iter] in Hk.
    destruct (gettok_cases s u) as [[Heof Happ]|(tok & s1 & t & v & Ht & -> & Hg & Hrepl)].
    + rewrite Heof, gettok_iter_end in Hk. injection Hk as <-.
      rewrite pending_with_pending in Hp.
      symmetry in Hp. apply app_eq_nil in Hp as [-> ->].
      exists u. split; [now rewrite app_nil_r|]. intros m. cbn [app].
      rewrite !app_nil_r.
      apply (lex_trace_step m _ _ tok_eof (with_pending s []) (with_pending s []));
        [now apply Happ|exact Heof|reflexivity|reflexivity|reflexivity].
    + rewrite Hg in Hk.
      destruct (IH s1 v s_k tr0 tr post Htr0 Htr Hk Hp) as (pre0 & Hv & Hrest).
      exists (t ++ pre0). split; [now rewrite Hv, <- app_assoc|].
      intros m. rewrite <- app_assoc.
      assert (Hc : compatible v (pre0 ++ tr0 ++ tr ++ post)).
      { rewrite Hv. destruct pre0 as [|a pre0]; [|now left].
        destruct tr0 as [|a tr0]; [|now left]. cbn [app].
        now apply trivia_compatible. }
      apply (lex_trace_step m _ _ tok
               (with_pending s1 (pre0 ++ tr0 ++ tr ++ post)) (with_pending s1 v));
        [exact (Hrepl _ Hc)|exact Hg|reflexivity|reflexivity|exact Hrest].
Qed.

Lemma lex_trace_boundary (s : State) (pre post tr : list ascii) :
  trivia tr -> token_boundary s pre post ->
  forall m, lex_trace m (with_pending s (pre ++ tr ++ post)) =
            lex_trace m (with_pending s (pre ++ post)).
Proof.
  intros Htr (k & s_k & tr0 & Hk & Htr0 & Hp) m.
  destruct (lex_trace_insert k s (pre ++ post) s_k tr0 tr post Htr0 Htr Hk Hp)
    as (pre0 & Hu & Hm).
  rewrite app_assoc in Hu. apply app_inv_tail in Hu. subst pre.
  rewrite <- Hm. now rewrite <- !app_assoc.
Qed.

(** ** The parser sees the input only through its tokens *)

Lemma gettok_fuel_lexer_eq (n : nat) :
  forall s1 s2, lexer_eq s1 s2 ->
    match gettok_fuel n s1, gettok_fuel n s2 with
    | Some (t1, s1'), Some (t2, s2') =>
        t1 = t2 /\ lexer_eq s1' s2' /\ statics_eq s1' s1 /\ statics_eq s2' s2
    | None, None => True
    | _, _ => False
    end.
Proof.
  induction n as [|n IH]; intros s1 s2 (E1 & E2 & E3 & E4); [exact I|].
  cbn [gettok_fuel]. rewrite <- E1, <- E2, <- E3.
  destruct (skip_whitespace (LastChar s1) (stdin s1)) as [c inp].
  destruct (isalpha c).
  { destruct (read_identifier (IdentifierStr s1) inp) as [[id c'] inp'].
    destruct (String.eqb id "def");
      [|destruct (String.eqb id "extern")]; repeat split; assumption. }
  destruct (isdigit c || (c =? chr "."))%bool.
  { destruct (read_number EmptyString c inp) as [[NumStr c'] inp'].
    repeat split; assumption. }
  assert (Hrest : forall c0 inp0,
            match gettok_rest (set_lexer s1 c0 inp0), gettok_rest (set_lexer s2 c0 inp0) with
            | (t1, s1'), (t2, s2') =>
                t1 = t2 /\ lexer_eq s1' s2' /\ statics_eq s1' s1 /\ statics_eq s2' s2
            end).
  { intros c0 inp0. unfold gettok_rest. cbn [LastChar stdin set_lexer].
    destruct (c0 =? EOF); [repeat split; assumption|].
    destruct (getchar inp0) as [c1 inp1]. repeat split; assumption. }
  destruct (c =? chr "#").
  - destruct (skip_comment inp) as [c' inp'].
    destruct (negb (c' =? EOF)).
    + specialize (IH (set_lexer s1 c' inp') (set_lexer s2 c' inp')).
      destruct (gettok_fuel n (set_lexer s1 c' inp')) as [[t1 s1']|],
               (gettok_fuel n (set_lexer s2 c' inp')) as [[t2 s2']|];
        apply IH; repeat split; assumption.
    + specialize (Hrest c' inp').
      destruct (gettok_rest (set_lexer s1 c' inp')), (gettok_rest (set_lexer s2 c' inp')).
      exact Hrest.
  - specialize (Hrest c inp).
    destruct (gettok_rest (set_lexer s1 c inp)), (gettok_rest (set_lexer s2 c inp)).
    exact Hrest.
Qed.

Lemma lexer_eq_refl (s : State) : lexer_eq s s.
Proof. repeat split. Qed.

Lemma gettok_statics (s : State) (t : Z) (s' : State) :
  gettok s = Some (t, s') -> statics_eq s' s.
Proof.
  intros H. pose proof (gettok_fuel_lexer_eq (S (length (stdin s))) s s (lexer_eq_refl s)) as E.
  unfold gettok in H. rewrite H in E. apply E.
Qed.

Lemma lex_trace_lexer_eq (m : nat) :
  forall s1 s2, lexer_eq s1 s2 -> lex_trace m s1 = lex_trace m s2.
Proof.
  induction m as [|m IH]; intros s1 s2 H; [reflexivity|].
  cbn [lex_trace]. unfold gettok.
  pose proof (gettok_fuel_lexer_eq (S (length (stdin s1))) s1 s2 H) as E.
  destruct H as (H1 & _). rewrite <- H1.
  destruct (gettok_fuel _ s1) as [[t1 s1']|], (gettok_fuel _ s2) as [[t2 s2']|];
    try contradiction; [|reflexivity].
  destruct E as (-> & Hl & _ & _). rewrite (IH _ _ Hl).
  destruct Hl as (_ & _ & -> & ->). reflexivity.
Qed.

Lemma sim_ret {A} (a : A) : sim (ret a).
Proof. intros s1 s2 H. cbn. auto. Qed.

Lemma sim_out_of_fuel {A} : sim (@out_of_fuel A).
Proof. intros s1 s2 H. exact I. Qed.

Lemma sim_bind {A B} (m : M A) (k : A -> M B) :
  sim m -> (forall a, sim (k a)) -> sim (bind m k).
Proof.
  intros Hm Hk s1 s2 H. unfold bind. specialize (Hm s1 s2 H).
  destruct (m s1) as [[a1 s1']|], (m s2) as [[a2 s2']|]; try contradiction; [|exact I].
  destruct Hm as [-> H']. apply Hk, H'.
Qed.

Lemma sim_ext {A} (m m' : M A) : (forall s, m s = m' s) -> sim m' -> sim m.
Proof. intros E H s1 s2 Hs. rewrite !E. apply H, Hs. Qed.

Lemma sim_get {A} (f : State -> A) :
  (forall s1 s2, token_equiv s1 s2 -> f s1 = f s2) -> sim (get f).
Proof. intros Hf s1 s2 H. cbn. auto. Qed.

Lemma sim_get_CurTok : sim (get CurTok).
Proof. apply sim_get. intros s1 s2 H. apply H. Qed.

Lemma sim_get_IdentifierStr : sim (get IdentifierStr).
Proof. apply sim_get. intros s1 s2 H. apply H. Qed.

Lemma sim_get_Number : sim (get (fun s => NumberExprAST (NumVal s))).
Proof. apply sim_get. intros s1 s2 (_ & E & _). now rewrite E. Qed.

Lemma token_equiv_change (s1 s2 s1' s2' : State) :
  token_equiv s1 s2 -> lexer_eq s1' s1 -> lexer_eq s2' s2 ->
  CurTok s1' = CurTok s2' -> BinopPrecedence s1' = BinopPrecedence s2' ->
  stderr s1' = stderr s2' ->
  token_equiv s1' s2'.
Proof.
  intros (E1 & E2 & E3 & E4 & E5 & E6) L1 L2 Hc Ht He.
  destruct L1 as (A1 & A2 & A3 & A4). destruct L2 as (B1 & B2 & B3 & B4).
  repeat split; try congruence.
  intros m.
  rewrite (lex_trace_lexer_eq m s1' s1), (lex_trace_lexer_eq m s2' s2);
    [apply E6| |]; repeat split; assumption.
Qed.

Lemma sim_LogError (Str : string) : sim (LogError Str).
Proof.
  intros s1 s2 H. cbn. split; [reflexivity|].
  apply (token_equiv_change s1 s2); try (repeat split; fail); try exact H.
  - apply H.
  - apply H.
  - cbn [stderr set_stderr]. destruct H as (_ & _ & _ & _ & -> & _). reflexivity.
Qed.

Lemma sim_GetTokPrecedence : sim GetTokPrecedence.
Proof.
  intros s1 s2 (E1 & E2 & E3 & E4 & E5 & E6). rewrite !GetTokPrecedence_eq.
  rewrite <- E3, <- E4. destruct (negb (isascii (CurTok s1))).
  - split; [reflexivity|]. repeat split; assumption.
  - cbv zeta. split; [reflexivity|].
    apply (token_equiv_change s1 s2); try (repeat split; fail);
      [repeat split; assumption|exact E3|exact E5].
Qed.

Lemma sim_getNextToken : sim getNextToken.
Proof.
  intros s1 s2 (E1 & E2 & E3 & E4 & E5 & E6). unfold getNextToken.
  destruct (gettok_total s1) as (t1 & s1' & H1).
  destruct (gettok_total s2) as (t2 & s2' & H2).
  rewrite H1, H2.
  pose proof (E6 1%nat) as T1. cbn [lex_trace] in T1. rewrite H1, H2 in T1.
  injection T1 as -> Hid Hnum.
  destruct (gettok_statics _ _ _ H1) as (Hc1 & Ht1 & He1).
  destruct (gettok_statics _ _ _ H2) as (Hc2 & Ht2 & He2).
  split; [reflexivity|].
  assert (Hrest : forall m, lex_trace m s1' = lex_trace m s2').
  { intros m. pose proof (E6 (S m)) as T. cbn [lex_trace] in T.
    rewrite H1, H2 in T. now injection T. }
  apply (token_equiv_change s1' s2'); try (repeat split; fail).
  - unfold token_equiv. repeat apply conj; congruence.
  - cbn [BinopPrecedence set_CurTok]. congruence.
  - cbn [stderr set_CurTok]. congruence.
Qed.

Ltac sim_step :=
  first
    [ assumption
    | apply sim_ret
    | apply sim_get_CurTok
    | apply sim_get_IdentifierStr
    | apply sim_get_Number
    | apply sim_LogError
    | apply sim_getNextToken
    | apply sim_GetTokPrecedence
    | apply sim_bind; [|intros ?]
    | match goal with
      | |- sim (if ?b then _ else _) => destruct b
      | |- sim (match ?o with Some _ => _ | None => _ end) => destruct o
      | H : forall _, sim _ |- _ => apply H
      | H : forall _ _, sim _ |- _ => apply H
      end ].

Lemma Parse_sim (n : nat) :
  sim (ParsePrimary n) /\
  sim (ParseParenExpr n) /\
  sim (ParseIdentifierExpr n) /\
  (forall Args, sim (ParseArgs n Args)) /\
  sim (ParseExpression n) /\
  (forall ExprPrec LHS, sim (ParseBinOpRHS n ExprPrec LHS)).
Proof.
  induction n as [|n (IH1 & IH2 & IH3 & IH4 & IH5 & IH6)].
  - repeat apply conj; intros; apply sim_out_of_fuel.
  - repeat apply conj; intros.
    + rewrite ParsePrimary_S. unfold ParseNumberExpr. repeat sim_step.
    + rewrite ParseParenExpr_S. repeat sim_step.
    + rewrite ParseIdentifierExpr_S. repeat sim_step.
    + rewrite ParseArgs_S. repeat sim_step.
    + rewrite ParseExpression_S. repeat sim_step.
    + eapply sim_ext; [apply ParseBinOpRHS_S|]. repeat sim_step.
Qed.

Lemma sim_result {A} (m : M A) (s1 s2 : State) :
  sim m -> token_equiv s1 s2 -> option_map fst (m s1) = option_map fst (m s2).
Proof.
  intros Hm H. specialize (Hm s1 s2 H).
  destruct (m s1) as [[a1 s1']|], (m s2) as [[a2 s2']|]; try contradiction;
    [|reflexivity].
  destruct Hm as [-> _]. reflexivity.
Qed.

(** C8: a comment -- ['#'], any characters other than newline and carriage
    return, and the newline or carriage return that ends it -- put between two
    tokens changes neither the tokens [gettok] delivers (with the values of
    [IdentifierStr] and [NumVal] that go with them) nor what
    [ParseExpression] returns; and "1 # ignore me\n+2" is parsed to the tree
    of "1+2". *)
Theorem comment_between_tokens :
  (forall (s : State) (pre post body : list ascii) (nl : ascii),
      comment_body body = true -> line_end nl = true ->
      token_boundary s pre post ->
      (forall m,
          lex_trace m (with_pending s (pre ++ ("#"%char :: body ++ [nl]) ++ post)) =
          lex_trace m (with_pending s (pre ++ post)))
      /\ (forall n,
            option_map fst
              ((getNextToken ;;; ParseExpression n)
                 (with_pending s (pre ++ ("#"%char :: body ++ [nl]) ++ post))) =
            option_map fst
              ((getNextToken ;;; ParseExpression n) (with_pending s (pre ++ post)))))
  /\ (forall n : nat,
        parse_result (n + 10) ("1 # ignore me" ++ String "010" "+2") =
        Some (Some (BinaryExprAST "+" (NumberExprAST (strtod "1"))
                                      (NumberExprAST (strtod "2"))))
        /\ parse_result (n + 10) "1+2" =
           Some (Some (BinaryExprAST "+" (NumberExprAST (strtod "1"))
                                         (NumberExprAST (strtod "2"))))).
Proof.
  split.
  - intros s pre post body nl Hb Hnl Hbd.
    assert (Htr : trivia ("#"%char :: body ++ [nl])).
    { apply trivia_comment; [exact Hb|exact Hnl|apply trivia_nil]. }
    pose proof (lex_trace_boundary s pre post _ Htr Hbd) as Hlex.
    split; [exact Hlex|]. intros n. apply sim_result.
    + apply sim_bind; [apply sim_getNextToken|intros _].
      apply (Parse_sim n).
    + repeat split. exact Hlex.
  - intros n. split; apply parse_result_fuel; vm_compute; reflexivity.
Qed.

(** * Further properties of the lexer *)

(** ** Progress and termination of [gettok] *)

Lemma skip_whitespace_size (inp : list ascii) :
  forall c, (chars_left (fst (skip_whitespace c inp)) (snd (skip_whitespace c inp))
             <= chars_left c inp)%nat.
Proof.
  unfold chars_left. induction inp as [|a inp IH]; intros c.
  - cbn [skip_whitespace]. destruct (isspace c); cbn; lia.
  - cbn [skip_whitespace]. destruct (isspace c) eqn:E; [|cbn; lia].
    specialize (IH (chr a)). rewrite chr_not_EOF in IH.
    assert (H : (c =? EOF) = false)
      by (destruct (Z.eqb_spec c EOF); [subst; discriminate|reflexivity]).
    rewrite H. cbn [length]. lia.
Qed.

Lemma read_identifier_size (inp : list ascii) :
  forall id, let r := read_identifier id inp in
             (chars_left (snd (fst r)) (snd r) <= length inp)%nat.
Proof.
  unfold chars_left. induction inp as [|a inp IH]; intros id; cbn [read_identifier].
  - cbn. lia.
  - destruct (isalnum (chr a)).
    + specialize (IH (id ++ String (to_char (chr a)) "")%string). cbn zeta in IH.
      cbn [length]. lia.
    + cbn [fst snd length]. rewrite chr_not_EOF. lia.
Qed.

Lemma read_number_size (inp : list ascii) :
  forall NumStr c, let r := read_number NumStr c inp in
                   (chars_left (snd (fst r)) (snd r) <= length inp)%nat.
Proof.
  unfold chars_left. induction inp as [|a inp IH]; intros NumStr c; cbn [read_number].
  - cbn. lia.
  - destruct (isdigit (chr a) || (chr a =? chr "."))%bool.
    + specialize (IH (NumStr ++ String (to_char c) "")%string (chr a)).
      cbn zeta in IH. cbn [length]. lia.
    + cbn [fst snd length]. rewrite chr_not_EOF. lia.
Qed.

Lemma skip_comment_size (inp : list ascii) :
  (chars_left (fst (skip_comment inp)) (snd (skip_comment inp)) <= length inp)%nat.
Proof.
  unfold chars_left. induction inp as [|a inp IH]; cbn [skip_comment].
  - cbn. lia.
  - destruct (negb (chr a =? EOF) && negb (chr a =? 10) && negb (chr a =? 13)).
    + cbn [length]. lia.
    + cbn [fst snd length]. rewrite chr_not_EOF. lia.
Qed.

Lemma getchar_size (inp : list ascii) :
  (chars_left (fst (getchar inp)) (snd (getchar inp)) <= length inp)%nat.
Proof.
  unfold chars_left. destruct inp as [|a inp]; cbn; [lia|].
  rewrite chr_not_EOF. lia.
Qed.

Lemma chars_left_not_EOF (c : Z) (inp : list ascii) :
  c <> EOF -> chars_left c inp = S (length inp).
Proof.
  intros H. unfold chars_left. apply Z.eqb_neq in H. rewrite H. lia.
Qed.

Lemma identifier_token_not_eof (id : string) :
  (if String.eqb id "def" then tok_def
   else if String.eqb id "extern" then tok_extern else tok_identifier) <> tok_eof.
Proof.
  destruct (String.eqb id "def"); [discriminate|].
  destruct (String.eqb id "extern"); discriminate.
Qed.

(** A call of [gettok] that returns a token other than [tok_eof] has taken
    at least one character; one that returns [tok_eof] leaves [EOF] in
    [LastChar]. *)
Lemma gettok_fuel_progress (n : nat) :
  forall s t s',
    gettok_fuel n s = Some (t, s') ->
    (t = tok_eof /\ LastChar s' = EOF /\ (lexer_size s' <= lexer_size s)%nat)
    \/ (t <> tok_eof /\ (lexer_size s' < lexer_size s)%nat).
Proof.
  induction n as [|n IH]; intros s t s' H; [discriminate|].
  cbn [gettok_fuel] in H. unfold lexer_size at 2 4.
  pose proof (skip_whitespace_size (stdin s) (LastChar s)) as Hws.
  destruct (skip_whitespace (LastChar s) (stdin s)) as [c inp]. cbn [fst snd] in Hws.
  destruct (isalpha c) eqn:Ea.
  { pose proof (read_identifier_size inp (IdentifierStr s)) as Hid. cbn zeta in Hid.
    destruct (read_identifier (IdentifierStr s) inp) as [[id c'] inp'].
    cbn [fst snd] in Hid. right.
    assert (Hc : c <> EOF) by (intros ->; discriminate).
    rewrite (chars_left_not_EOF c inp Hc) in Hws.
    assert (Ht : t <> tok_eof /\ lexer_size s' = chars_left c' inp').
    { destruct (String.eqb id "def"); [injection H as <- <-; split; [discriminate|reflexivity]|].
      destruct (String.eqb id "extern"); injection H as <- <-;
        (split; [discriminate|reflexivity]). }
    destruct Ht as [Ht ->]. split; [exact Ht|lia]. }
  destruct (isdigit c || (c =? chr "."))%bool eqn:Ed.
  { pose proof (read_number_size inp EmptyString c) as Hn. cbn zeta in Hn.
    destruct (read_number EmptyString c inp) as [[NumStr c'] inp'].
    cbn [fst snd] in Hn. injection H as <- <-. right.
    assert (Hc : c <> EOF) by (intros ->; discriminate).
    rewrite (chars_left_not_EOF c inp Hc) in Hws.
    split; [discriminate|]. unfold lexer_size. cbn [LastChar stdin set_NumVal set_lexer].
    lia. }
  assert (Hrest : forall c0 inp0 t0 s0,
            gettok_rest (set_lexer s c0 inp0) = (t0, s0) ->
            (t0 = tok_eof /\ LastChar s0 = EOF /\ lexer_size s0 = chars_left c0 inp0)
            \/ (t0 <> tok_eof /\ (lexer_size s0 < chars_left c0 inp0)%nat)).
  { intros c0 inp0 t0 s0. unfold gettok_rest. cbn [LastChar stdin set_lexer].
    destruct (Z.eqb_spec c0 EOF) as [->|Hne].
    - intros [= <- <-]. left. repeat split.
    - pose proof (getchar_size inp0) as Hg.
      destruct (getchar inp0) as [c1 inp1]. cbn [fst snd] in Hg.
      intros [= <- <-]. right. split; [exact Hne|].
      unfold lexer_size. cbn [LastChar stdin set_lexer].
      rewrite (chars_left_not_EOF c0 inp0 Hne). lia. }
  destruct (c =? chr "#") eqn:Eh.
  - apply Z.eqb_eq in Eh. subst c.
    rewrite (chars_left_not_EOF (chr "#") inp) in Hws by discriminate.
    pose proof (skip_comment_size inp) as Hc.
    destruct (skip_comment inp) as [c' inp']. cbn [fst snd] in Hc.
    destruct (negb (c' =? EOF)).
    + destruct (IH _ _ _ H) as [(-> & HE & Hle)|(Hne & Hlt)];
        unfold lexer_size at 2 in Hle || unfold lexer_size at 2 in Hlt;
        cbn [LastChar stdin set_lexer] in *.
      * left. repeat split; [exact HE|lia].
      * right. split; [exact Hne|lia].
    + injection H as H.
      destruct (Hrest _ _ _ _ H) as [(-> & HE & Hle)|(Hne & Hlt)].
      * left. repeat split; [exact HE|lia].
      * right. split; [exact Hne|lia].
  - injection H as H.
    destruct (Hrest _ _ _ _ H) as [(-> & HE & Hle)|(Hne & Hlt)].
    + left. repeat split; [exact HE|lia].
    + right. split; [exact Hne|lia].
Qed.

Lemma set_lexer_same (s : State) : set_lexer s (LastChar s) (stdin s) = s.
Proof. now destruct s. Qed.

Lemma gettok_fuel_at_EOF (n : nat) (s : State) :
  LastChar s = EOF -> gettok_fuel (S n) s = Some (tok_eof, s).
Proof.
  intros H. cbn [gettok_fuel]. rewrite skip_whitespace_eq, H.
  change (isspace EOF) with false. cbv iota.
  change (isalpha EOF) with false. cbv iota.
  change (isdigit EOF || (EOF =? chr "."))%bool with false. cbv iota.
  change (EOF =? chr "#") with false. cbv iota.
  unfold gettok_rest. cbn [LastChar set_lexer]. rewrite Z.eqb_refl.
  now rewrite <- H, set_lexer_same.
Qed.

(** X1: [gettok] returns in every state, and the calls of [gettok] nested
    through [return gettok();] never outnumber the unread characters by more
    than one: any fuel above the length of the unread input gives the same
    result. *)
Theorem gettok_fuel_sufficient (s : State) :
  exists r, forall n, (length (stdin s) < n)%nat -> gettok_fuel n s = Some r.
Proof.
  destruct (gettok_total s) as (t & s' & H). exists (t, s').
  intros n Hn. apply (gettok_fuel_le (S (length (stdin s)))); [lia|exact H].
Qed.

(** X2: a call of [gettok] that returns anything but [tok_eof] has consumed
    at least one character: afterwards strictly fewer characters (unread input
    plus look-ahead) are left. *)
Theorem gettok_consumes (s : State) (t : Z) (s' : State) :
  gettok s = Some (t, s') -> t <> tok_eof ->
  (lexer_size s' < lexer_size s)%nat.
Proof.
  intros H Hne. destruct (gettok_fuel_progress _ _ _ _ H) as [(-> & _)|(_ & Hlt)];
    [contradiction|exact Hlt].
Qed.

(** X3: once [gettok] has returned [tok_eof] the lexer stays at the end of
    input: [LastChar] holds [EOF], and every further call returns [tok_eof]
    again and changes nothing. *)
Theorem gettok_eof_is_final (s s' : State) :
  gettok s = Some (tok_eof, s') ->
  LastChar s' = EOF
  /\ gettok s' = Some (tok_eof, s')
  /\ forall k, gettok_iter k s' = Some s'.
Proof.
  intros H.
  assert (HE : LastChar s' = EOF).
  { destruct (gettok_fuel_progress _ _ _ _ H) as [(_ & HE & _)|(Hne & _)];
      [exact HE|contradiction]. }
  assert (Hg : gettok s' = Some (tok_eof, s')) by (apply gettok_fuel_at_EOF, HE).
  repeat split; [exact HE|exact Hg|].
  intros k. induction k as [|k IH]; [reflexivity|].
  cbn [gettok_iter]. now rewrite Hg.
Qed.

(** X4: the tokens of [gettok]: one of the five codes of [enum Token], or
    the code of a character that is neither white space, nor a letter, a digit
    or ['.'], nor ['#'] -- those characters never come back as tokens. *)
Theorem gettok_token_kinds (s : State) (u : list ascii) (t : Z) (s' : State) :
  gettok (with_pending s u) = Some (t, s') ->
  t = tok_eof \/ t = tok_def \/ t = tok_extern \/ t = tok_identifier
  \/ t = tok_number
  \/ exists c, t = chr c /\ other_char c = true.
Proof.
  destruct (lexeme_shape_total u) as [tr Htr|tr body Htr Hb|tr c run v Htr Hc Hrun Hv
                                     |tr c run v Htr Hc Hrun Hv|tr c v Htr Hc].
  - rewrite (gettok_all_trivia s tr Htr). intros [= <- _]. now left.
  - rewrite (gettok_trivia s tr _ Htr), (gettok_fuel_gettok 1 _ _ (gettok_comment_eof 0 s body Hb)).
    intros [= <- _]. now left.
  - rewrite (identifier_token_accumulates s tr c run v Htr Hc Hrun Hv).
    intros [= <- _]. unfold identifier_token.
    destruct (String.eqb _ "def"); [tauto|].
    destruct (String.eqb _ "extern"); tauto.
  - rewrite (gettok_number s tr c run v Htr Hc Hrun Hv). intros [= <- _]. tauto.
  - rewrite (gettok_trivia s tr _ Htr),
      (gettok_fuel_gettok 1 _ _ (gettok_char_here 0 s c v Hc)).
    intros [= <- _]. do 5 right. eauto.
Qed.

(** X5: on an identifier [gettok] consumes the maximal run of letters and
    digits and leaves the first character after it in [LastChar]; the text it
    keeps is what [IdentifierStr] held before followed by the run without its
    first character, and the token is [tok_def], [tok_extern] or
    [tok_identifier] according to that text. *)
Theorem gettok_identifier (s : State) (tr : list ascii) (c : ascii)
        (run v : list ascii) :
  trivia tr ->
  alpha_char c = true -> forallb alnum_char run = true ->
  isalnum (lookahead v) = false ->
  gettok (with_pending s (tr ++ c :: run ++ v)) =
  Some (identifier_token (IdentifierStr s ++ string_of_list_ascii run),
        set_IdentifierStr (with_pending s v)
          (IdentifierStr s ++ string_of_list_ascii run)).
Proof. apply identifier_token_accumulates. Qed.

(** X6: a character that starts no identifier, number or comment is a token
    of its own: [gettok] returns its code and consumes just that character. *)
Theorem gettok_character (s : State) (tr : list ascii) (c : ascii) (v : list ascii) :
  trivia tr -> other_char c = true ->
  gettok (with_pending s (tr ++ c :: v)) = Some (chr c, with_pending s v)
  /\ 0 <= chr c < 256.
Proof.
  intros Htr Hc. split; [|apply chr_range].
  rewrite (gettok_trivia s tr _ Htr).
  apply (gettok_fuel_gettok 1), gettok_char_here, Hc.
Qed.

(** X7: white space and complete comments in front of a token are skipped
    by the very call that reads the token: the call returns what it would
    return without them, token and state. *)
Theorem gettok_skips_trivia (s : State) (tr rest : list ascii) :
  trivia tr ->
  gettok (with_pending s (tr ++ rest)) = gettok (with_pending s rest).
Proof. apply gettok_trivia. Qed.

(** ** What [gettok] leaves alone *)

Lemma gettok_fuel_carried (n : nat) :
  forall s t s',
    gettok_fuel n s = Some (t, s') ->
    (t <> tok_number -> NumVal s' = NumVal s)
    /\ (t <> tok_def -> t <> tok_extern -> t <> tok_identifier ->
        IdentifierStr s' = IdentifierStr s).
Proof.
  induction n as [|n IH]; intros s t s' H; [discriminate|].
  cbn [gettok_fuel] in H.
  destruct (skip_whitespace (LastChar s) (stdin s)) as [c inp].
  destruct (isalpha c).
  { destruct (read_identifier (IdentifierStr s) inp) as [[id c'] inp'].
    destruct (String.eqb id "def"); [|destruct (String.eqb id "extern")];
      injection H as <- <-; (split; [reflexivity|intros; contradiction]). }
  destruct (isdigit c || (c =? chr "."))%bool.
  { destruct (read_number EmptyString c inp) as [[NumStr c'] inp'].
    injection H as <- <-. split; [intros; contradiction|reflexivity]. }
  assert (Hrest : forall c0 inp0 t0 s0,
            gettok_rest (set_lexer s c0 inp0) = (t0, s0) ->
            NumVal s0 = NumVal s /\ IdentifierStr s0 = IdentifierStr s).
  { intros c0 inp0 t0 s0. unfold gettok_rest. cbn [LastChar stdin set_lexer].
    destruct (c0 =? EOF); [now intros [= _ <-]|].
    destruct (getchar inp0) as [c1 inp1]. now intros [= _ <-]. }
  destruct (c =? chr "#").
  - destruct (skip_comment inp) as [c' inp'].
    destruct (negb (c' =? EOF)); [exact (IH _ _ _ H)|].
    injection H as H. destruct (Hrest _ _ _ _ H) as [E1 E2]. now split.
  - injection H as H. destruct (Hrest _ _ _ _ H) as [E1 E2]. now split.
Qed.

(** X8: [gettok] never writes [CurTok], the precedence table or stderr; it
    changes [NumVal] only when it returns [tok_number] and [IdentifierStr]
    only when it returns [tok_def], [tok_extern] or [tok_identifier]. *)
Theorem gettok_frame (s : State) (t : Z) (s' : State) :
  gettok s = Some (t, s') ->
  CurTok s' = CurTok s
  /\ BinopPrecedence s' = BinopPrecedence s
  /\ stderr s' = stderr s
  /\ (t <> tok_number -> NumVal s' = NumVal s)
  /\ (t <> tok_def -> t <> tok_extern -> t <> tok_identifier ->
      IdentifierStr s' = IdentifierStr s).
Proof.
  intros H. destruct (gettok_statics _ _ _ H) as (E1 & E2 & E3).
  destruct (gettok_fuel_carried _ _ _ _ H) as [Hn Hi].
  repeat apply conj; assumption.
Qed.

(** ** The precedence look-up *)

(** X9: [GetTokPrecedence] never returns 0: its result is -1 or positive.
    It leaves [CurTok] alone, and a second look-up returns the same result
    and changes nothing any more -- the entry that the first one may have
    added is found by the second. *)
Theorem GetTokPrecedence_again (s : State) (TokPrec : Z) (s1 : State) :
  GetTokPrecedence s = Some (TokPrec, s1) ->
  (TokPrec = -1 \/ 0 < TokPrec)
  /\ CurTok s1 = CurTok s
  /\ GetTokPrecedence s1 = Some (TokPrec, s1).
Proof.
  rewrite GetTokPrecedence_eq.
  destruct (negb (isascii (CurTok s))) eqn:E.
  - intros [= <- <-]. repeat split; [now left|].
    rewrite GetTokPrecedence_eq. now rewrite E.
  - cbv zeta. intros [= <- <-]. split; [|split; [reflexivity|]].
    + destruct (Z.leb_spec (fst (map_subscript (BinopPrecedence s) (CurTok s))) 0);
        [now left|now right].
    + rewrite GetTokPrecedence_eq. cbn [CurTok BinopPrecedence set_BinopPrecedence].
      rewrite E. cbv zeta. unfold map_subscript.
      destruct (BinopPrecedence s !! CurTok s) as [v|] eqn:L; cbn [fst snd].
      * rewrite L. cbn [fst snd]. now destruct s.
      * rewrite lookup_insert_eq. cbn [fst snd]. reflexivity.
Qed.

(** * Further properties of the parser *)

(** ** The trees of [ParseExpression] *)

Lemma ParseBinOpRHS_chain (n : nat) :
  forall ExprPrec LHS s e s',
    ParseBinOpRHS n ExprPrec LHS s = Some (Some e, s') ->
    exists chain, operator_chain ExprPrec s chain s' /\ e = left_nested LHS chain.
Proof.
  induction n as [|n IH]; intros p L s e s' H; [discriminate|].
  rewrite ParseBinOpRHS_S in H. unfold bind at 1 in H.
  destruct (GetTokPrecedence s) as [[TokPrec s1]|] eqn:E1; [|discriminate].
  destruct (Z.ltb_spec TokPrec p) as [Hlt|Hge].
  { injection H as <- <-. exists []. split; [|reflexivity].
    now apply (chain_end p s TokPrec s1). }
  unfold bind at 1, get in H. unfold bind at 1 in H.
  destruct (getNextToken s1) as [[t s2]|] eqn:E2; [|discriminate].
  unfold bind at 1 in H.
  destruct (ParsePrimary n s2) as [[[RHS|] s3]|] eqn:E3; try discriminate.
  unfold bind at 1 in H.
  destruct (GetTokPrecedence s3) as [[NextPrec s4]|] eqn:E4; [|discriminate].
  destruct (IH _ _ _ _ _ H) as (chain & Hc & ->).
  exists ((to_char (CurTok s1), TokPrec, RHS) :: chain). split; [|reflexivity].
  apply (chain_step p s TokPrec s1 t s2 RHS s3 NextPrec s4 chain s');
    try assumption. now exists n.
Qed.

(** X10: the trees of [ParseExpression] are exactly the left-nested ones:
    it returns a tree if and only if a primary expression is followed by a
    chain of operators with their right operands, and the tree then combines
    them from left to right, ((p op1 r1) op2 r2) ..., whatever the
    precedences of the operators are. *)
Theorem ParseExpression_trees (s : State) (e : ExprAST) (s' : State) :
  runs ParseExpression s (Some e, s') <->
  exists LHS s1 chain,
    runs ParsePrimary s (Some LHS, s1)
    /\ operator_chain 0 s1 chain s'
    /\ e = left_nested LHS chain.
Proof.
  split.
  - intros [n H]. destruct n as [|n]; [discriminate|].
    rewrite ParseExpression_S in H. unfold bind in H.
    destruct (ParsePrimary n s) as [[[LHS|] s1]|] eqn:E; try discriminate.
    destruct (ParseBinOpRHS_chain _ _ _ _ _ _ H) as (chain & Hc & ->).
    exists LHS, s1, chain. repeat split; [now exists n|exact Hc].
  - intros (LHS & s1 & chain & [n1 H1] & Hc & ->).
    destruct (ParseBinOpRHS_left_nested 0 s1 chain s' Hc LHS) as [n2 H2].
    exists (S (Nat.max n1 n2)). rewrite ParseExpression_S.
    rewrite (bind_eq _ _ _ _ _ (ParsePrimary_le n1 _ _ _ H1 (Nat.le_max_l _ _))).
    apply (ParseBinOpRHS_le n2); [exact H2|lia].
Qed.

(** ** Errors *)

Lemma silent_get {A} (f : State -> A) : silent (get f).
Proof. intros s a s' [= _ <-]. reflexivity. Qed.

Lemma silent_getNextToken : silent getNextToken.
Proof.
  intros s t s'. unfold getNextToken.
  destruct (gettok s) as [[t0 s0]|] eqn:E; [|discriminate].
  intros [= _ <-]. cbn [stderr set_CurTok]. apply (gettok_statics _ _ _ E).
Qed.

Lemma silent_GetTokPrecedence : silent GetTokPrecedence.
Proof.
  intros s p s'. rewrite GetTokPrecedence_eq.
  destruct (negb (isascii (CurTok s))); [now intros [= _ <-]|].
  cbv zeta. now intros [= _ <-].
Qed.

Lemma one_error_ext {A} (m m' : M (option A)) :
  (forall s, m s = m' s) -> one_error m' -> one_error m.
Proof. intros E H s r s'. rewrite E. apply H. Qed.

Lemma one_error_out_of_fuel {A} : one_error (@out_of_fuel (option A)).
Proof. intros s r s' H. discriminate. Qed.

Lemma one_error_ret_Some {A} (a : A) : one_error (ret (Some a)).
Proof. intros s r s' [= <- <-]. reflexivity. Qed.

Lemma one_error_LogError (Str : string) : parser_message Str -> one_error (LogError Str).
Proof. intros HS s r s' [= <- <-]. exists Str. now split. Qed.

Lemma one_error_bind_silent {A B} (m : M A) (k : A -> M (option B)) :
  silent m -> (forall a, one_error (k a)) -> one_error (bind m k).
Proof.
  intros Hm Hk s r s'. unfold bind.
  destruct (m s) as [[a s1]|] eqn:E; [|discriminate].
  intros H. rewrite <- (Hm _ _ _ E). exact (Hk _ _ _ _ H).
Qed.

Lemma one_error_bind_opt {A B} (m : M (option A)) (k : A -> M (option B)) :
  one_error m -> (forall a, one_error (k a)) ->
  one_error (bind m (fun V => match V with
                              | None => ret None
                              | Some a => k a
                              end)).
Proof.
  intros Hm Hk s r s'. unfold bind.
  destruct (m s) as [[[a|] s1]|] eqn:E; [| |discriminate].
  - intros H. pose proof (Hm _ _ _ E) as E1. cbn in E1. rewrite <- E1.
    exact (Hk _ _ _ _ H).
  - intros [= <- <-]. exact (Hm _ _ _ E).
Qed.

Ltac one_error_step :=
  first
    [ assumption
    | apply one_error_ret_Some
    | apply one_error_LogError; unfold parser_message; tauto
    | apply one_error_bind_opt; [|intros ?]
    | apply one_error_bind_silent;
      [first [apply silent_get|apply silent_getNextToken|apply silent_GetTokPrecedence]
      |intros ?]
    | match goal with
      | |- one_error (if ?b then _ else _) => destruct b
      | H : forall _, one_error _ |- _ => apply H
      | H : forall _ _, one_error _ |- _ => apply H
      end ].

Lemma one_error_ParseArgs_step (n : nat) (Acc : list ExprAST) :
  one_error (ParseExpression n) ->
  (forall Acc', one_error (ParseArgs n Acc')) ->
  one_error (ParseArgs (S n) Acc).
Proof.
  intros HE HA. rewrite ParseArgs_S. apply one_error_bind_opt; [exact HE|].
  intros Arg. apply one_error_bind_silent; [apply silent_get|]. intros tok.
  destruct (tok =? chr ")"); [apply one_error_ret_Some|].
  destruct (negb (tok =? chr ",")).
  - intros s r s'. unfold bind, LogError, ret. intros [= <- <-].
    exists args_error. split; [unfold parser_message; tauto|reflexivity].
  - apply one_error_bind_silent; [apply silent_getNextToken|]. intros _. apply HA.
Qed.

Lemma Parse_one_error (n : nat) :
  one_error (ParsePrimary n) /\
  one_error (ParseParenExpr n) /\
  one_error (ParseIdentifierExpr n) /\
  (forall Args, one_error (ParseArgs n Args)) /\
  one_error (ParseExpression n) /\
  (forall ExprPrec LHS, one_error (ParseBinOpRHS n ExprPrec LHS)).
Proof.
  induction n as [|n (IH1 & IH2 & IH3 & IH4 & IH5 & IH6)].
  - repeat apply conj; intros; apply one_error_out_of_fuel.
  - repeat apply conj; intros.
    + rewrite ParsePrimary_S. unfold ParseNumberExpr. repeat one_error_step.
    + rewrite ParseParenExpr_S. repeat one_error_step.
    + rewrite ParseIdentifierExpr_S.
      do 3 (apply one_error_bind_silent;
            [first [apply silent_get|apply silent_getNextToken]|intros ?]).
      destruct (negb (a1 =? chr "(")); [apply one_error_ret_Some|].
      do 2 (apply one_error_bind_silent;
            [first [apply silent_get|apply silent_getNextToken]|intros ?]).
      apply one_error_bind_opt; [|intros ?; repeat one_error_step].
      destruct (negb (a3 =? chr ")")); [apply IH4|apply one_error_ret_Some].
    + apply one_error_ParseArgs_step; assumption.
    + rewrite ParseExpression_S. repeat one_error_step.
    + eapply one_error_ext; [apply ParseBinOpRHS_S|].
      apply one_error_bind_silent; [apply silent_GetTokPrecedence|]. intros TokPrec.
      destruct (TokPrec <? ExprPrec); [apply one_error_ret_Some|].
      repeat one_error_step.
Qed.

(** X11: a parse function either returns a tree and has written nothing to
    stderr, or returns [nullptr] and has written exactly one line: "Error: ",
    one of the three messages of the parser, and a newline.  The first error
    ends the parse; nothing is reported twice and no failure is silent. *)
Theorem parse_reports_one_error :
  forall (n : nat) (s : State) (r : option ExprAST) (s' : State),
    ParseExpression n s = Some (r, s') \/ ParsePrimary n s = Some (r, s') ->
    match r with
    | Some _ => stderr s' = stderr s
    | None =>
        exists Str,
          (Str = "Unknown Token! Expected an expression"%string
           \/ Str = "Expected ')'"%string
           \/ Str = "Expected ')' or ',' in argument list"%string)
          /\ stderr s' = stderr s ++ [("Error: " ++ Str ++ String "010" "")%string]
    end.
Proof.
  intros n s r s' [H|H].
  - exact (proj1 (proj2 (proj2 (proj2 (proj2 (Parse_one_error n))))) s r s' H).
  - exact (proj1 (Parse_one_error n) s r s' H).
Qed.

(** ** Consumption of input and termination *)

Lemma getNextToken_remaining (s : State) (t : Z) (s' : State) :
  getNextToken s = Some (t, s') ->
  (remaining s' <= remaining s)%nat
  /\ (CurTok s <> tok_eof -> (remaining s' < remaining s)%nat).
Proof.
  unfold getNextToken. destruct (gettok s) as [[t0 s0]|] eqn:E; [|discriminate].
  intros [= <- <-]. unfold remaining.
  assert (Hl : lexer_size (set_CurTok s0 t0) = lexer_size s0) by reflexivity.
  rewrite Hl. cbn [CurTok set_CurTok].
  destruct (gettok_fuel_progress _ _ _ _ E) as [(-> & _ & Hle)|(Hne & Hlt)].
  - rewrite Z.eqb_refl. split.
    + destruct (CurTok s =? tok_eof); lia.
    + intros Hc. apply Z.eqb_neq in Hc. rewrite Hc. lia.
  - apply Z.eqb_neq in Hne. rewrite Hne. split.
    + destruct (CurTok s =? tok_eof); lia.
    + intros Hc. apply Z.eqb_neq in Hc. rewrite Hc. lia.
Qed.

Lemma GetTokPrecedence_remaining (s : State) (p : Z) (s' : State) :
  GetTokPrecedence s = Some (p, s') ->
  remaining s' = remaining s /\ CurTok s' = CurTok s.
Proof.
  rewrite GetTokPrecedence_eq. destruct (negb (isascii (CurTok s))).
  - intros [= _ <-]. now split.
  - cbv zeta. intros [= _ <-]. now split.
Qed.

Lemma shrinks_ret {A} (a : A) : shrinks (ret a).
Proof. intros s b s' [= _ <-]. lia. Qed.

Lemma shrinks_get {A} (f : State -> A) : shrinks (get f).
Proof. intros s b s' [= _ <-]. lia. Qed.

Lemma shrinks_out_of_fuel {A} : shrinks (@out_of_fuel A).
Proof. intros s b s' H. discriminate. Qed.

Lemma shrinks_LogError (Str : string) : shrinks (LogError Str).
Proof. intros s b s' [= _ <-]. apply Nat.le_refl. Qed.

Lemma shrinks_getNextToken : shrinks getNextToken.
Proof. intros s t s' H. apply (getNextToken_remaining _ _ _ H). Qed.

Lemma shrinks_GetTokPrecedence : shrinks GetTokPrecedence.
Proof.
  intros s p s' H. destruct (GetTokPrecedence_remaining _ _ _ H) as [E _]. lia.
Qed.

Lemma shrinks_bind {A B} (m : M A) (k : A -> M B) :
  shrinks m -> (forall a, shrinks (k a)) -> shrinks (bind m k).
Proof.
  intros Hm Hk s b s'. unfold bind.
  destruct (m s) as [[a s1]|] eqn:E; [|discriminate].
  intros H. pose proof (Hm _ _ _ E). pose proof (Hk _ _ _ _ H). lia.
Qed.

Lemma shrinks_ext {A} (m m' : M A) :
  (forall s, m s = m' s) -> shrinks m' -> shrinks m.
Proof. intros E H s a s'. rewrite E. apply H. Qed.

Ltac shrinks_step :=
  first
    [ assumption
    | apply shrinks_ret
    | apply shrinks_get
    | apply shrinks_LogError
    | apply shrinks_getNextToken
    | apply shrinks_GetTokPrecedence
    | apply shrinks_bind; [|intros ?]
    | match goal with
      | |- shrinks (if ?b then _ else _) => destruct b
      | |- shrinks (match ?o with Some _ => _ | None => _ end) => destruct o
      | H : forall _, shrinks _ |- _ => apply H
      | H : forall _ _, shrinks _ |- _ => apply H
      end ].

Lemma Parse_shrinks (n : nat) :
  shrinks (ParsePrimary n) /\
  shrinks (ParseParenExpr n) /\
  shrinks (ParseIdentifierExpr n) /\
  (forall Args, shrinks (ParseArgs n Args)) /\
  shrinks (ParseExpression n) /\
  (forall ExprPrec LHS, shrinks (ParseBinOpRHS n ExprPrec LHS)).
Proof.
  induction n as [|n (IH1 & IH2 & IH3 & IH4 & IH5 & IH6)].
  - repeat apply conj; intros; apply shrinks_out_of_fuel.
  - repeat apply conj; intros.
    + rewrite ParsePrimary_S. unfold ParseNumberExpr. repeat shrinks_step.
    + rewrite ParseParenExpr_S. repeat shrinks_step.
    + rewrite ParseIdentifierExpr_S. repeat shrinks_step.
    + rewrite ParseArgs_S. repeat shrinks_step.
    + rewrite ParseExpression_S. repeat shrinks_step.
    + eapply shrinks_ext; [apply ParseBinOpRHS_S|]. repeat shrinks_step.
Qed.

(** A computation that starts with [getNextToken] on a token other than
    [tok_eof] and only shrinks afterwards leaves strictly less. *)
Lemma strict_after_getNextToken {A} (k : M A) (s : State) (a : A) (s' : State) :
  shrinks k -> CurTok s <> tok_eof ->
  (getNextToken ;;; k) s = Some (a, s') ->
  (remaining s' < remaining s)%nat.
Proof.
  intros Hk Hc. unfold bind.
  destruct (getNextToken s) as [[t s0]|] eqn:E; [|discriminate].
  intros H. pose proof (proj2 (getNextToken_remaining _ _ _ E) Hc).
  pose proof (Hk _ _ _ H). lia.
Qed.

Lemma ParsePrimary_strict (n : nat) (s : State) (e : ExprAST) (s' : State) :
  ParsePrimary n s = Some (Some e, s') -> (remaining s' < remaining s)%nat.
Proof.
  destruct n as [|n]; [discriminate|].
  destruct (Parse_shrinks n) as (S1 & S2 & S3 & S4 & S5 & S6).
  rewrite ParsePrimary_S. unfold bind at 1, get.
  destruct (Z.eqb_spec (CurTok s) tok_identifier) as [E1|N1].
  { destruct n as [|n]; [discriminate|]. rewrite ParseIdentifierExpr_S.
    unfold bind at 1, get.
    destruct (Parse_shrinks n) as (_ & _ & _ & T4 & _ & _).
    apply strict_after_getNextToken; [repeat shrinks_step|].
    rewrite E1. discriminate. }
  destruct (Z.eqb_spec (CurTok s) tok_number) as [E2|N2].
  { unfold ParseNumberExpr. unfold bind at 1, get.
    apply strict_after_getNextToken; [repeat shrinks_step|].
    rewrite E2. discriminate. }
  destruct (Z.eqb_spec (CurTok s) (chr "(")) as [E3|N3].
  { destruct n as [|n]; [discriminate|]. rewrite ParseParenExpr_S.
    destruct (Parse_shrinks n) as (_ & _ & _ & _ & T5 & _).
    apply strict_after_getNextToken; [repeat shrinks_step|].
    rewrite E3. discriminate. }
  discriminate.
Qed.

(** X12: parsing never puts anything back: after [ParseExpression] no more
    is left to read (unread characters, look-ahead and current token) than
    before, whether it succeeded or failed; and when it returns a tree,
    strictly less is left -- a successful parse has consumed at least one
    token. *)
Theorem ParseExpression_consumes (n : nat) (s : State) (r : option ExprAST)
        (s' : State) :
  ParseExpression n s = Some (r, s') ->
  (remaining s' <= remaining s)%nat
  /\ (r <> None -> (remaining s' < remaining s)%nat).
Proof.
  intros H. split.
  - exact (proj1 (proj2 (proj2 (proj2 (proj2 (Parse_shrinks n))))) s r s' H).
  - intros Hr. destruct n as [|n]; [discriminate|].
    rewrite ParseExpression_S in H. unfold bind in H.
    destruct (ParsePrimary n s) as [[[LHS|] s1]|] eqn:E; try discriminate.
    + pose proof (ParsePrimary_strict _ _ _ _ E).
      pose proof (proj2 (proj2 (proj2 (proj2 (proj2 (Parse_shrinks n))))) 0 LHS _ _ _ H).
      lia.
    + injection H as <- _. contradiction.
Qed.

Lemma GetTokPrecedence_total (s : State) :
  exists p s1, GetTokPrecedence s = Some (p, s1).
Proof.
  rewrite GetTokPrecedence_eq. destruct (negb (isascii (CurTok s))); eauto.
Qed.

Lemma ParseParenExpr_halts_after (s s0 : State) (t : Z) :
  getNextToken s = Some (t, s0) -> halts ParseExpression s0 ->
  halts ParseParenExpr s.
Proof.
  intros H0 (n & [V s1] & Hn). exists (S n).
  rewrite (ParseParenExpr_after_inner n s t s0 V s1 H0 Hn).
  destruct V as [V|]; [|eauto].
  destruct (CurTok s1 =? chr ")"); [|eauto].
  destruct (getNextToken_total s1) as [s2 H2].
  rewrite (bind_eq _ _ _ _ _ H2). unfold ret. eauto.
Qed.

Lemma Parse_halts_below (m : nat) :
  forall s, (remaining s < m)%nat ->
    halts ParsePrimary s /\
    halts ParseParenExpr s /\
    halts ParseIdentifierExpr s /\
    (forall Args, halts (fun n => ParseArgs n Args) s) /\
    halts ParseExpression s /\
    (forall ExprPrec LHS, halts (fun n => ParseBinOpRHS n ExprPrec LHS) s).
Proof.
  induction m as [|m IH]; [intros s Hs; lia|].
  (* ParseIdentifierExpr *)
  assert (HI : forall s, (remaining s < S m)%nat -> halts ParseIdentifierExpr s).
  { intros s Hs. destruct (getNextToken_total s) as [s0 H0].
    pose proof (proj1 (getNextToken_remaining _ _ _ H0)) as L0.
    destruct (Z.eqb_spec (CurTok s0) (chr "(")) as [Ep|Np].
    - destruct (getNextToken_total s0) as [s1 H1].
      assert (L1 : (remaining s1 < remaining s0)%nat).
      { apply (getNextToken_remaining _ _ _ H1). rewrite Ep. discriminate. }
      destruct (Z.eqb_spec (CurTok s1) (chr ")")) as [Ec|Nc].
      + exists 1%nat. rewrite (ParseIdentifierExpr_call 0 s _ s0 _ s1 H0 Ep H1).
        rewrite Ec. change (negb (chr ")" =? chr ")")) with false. cbv iota.
        unfold bind at 1, ret at 1.
        destruct (getNextToken_total s1) as [s2 H2].
        rewrite (bind_eq _ _ _ _ _ H2). unfold ret. eauto.
      + destruct (IH s1 ltac:(lia)) as (_ & _ & _ & HA & _ & _).
        destruct (HA []) as (n & [ra sa] & Hn). exists (S n).
        rewrite (ParseIdentifierExpr_call n s _ s0 _ s1 H0 Ep H1).
        apply Z.eqb_neq in Nc. rewrite Nc. cbn [negb].
        rewrite (bind_eq _ _ _ _ _ Hn).
        destruct ra as [Args|]; [|unfold ret; eauto].
        destruct (getNextToken_total sa) as [s2 H2].
        rewrite (bind_eq _ _ _ _ _ H2). unfold ret. eauto.
    - exists 1%nat. rewrite ParseIdentifierExpr_S.
      unfold bind at 1, get. rewrite (bind_eq _ _ _ _ _ H0).
      unfold bind at 1, get. apply Z.eqb_neq in Np. rewrite Np. cbn [negb].
      unfold ret. eauto. }
  (* ParseParenExpr, entered on a token *)
  assert (HP' : forall s, (remaining s < S m)%nat -> CurTok s <> tok_eof ->
                          halts ParseParenExpr s).
  { intros s Hs Hc. destruct (getNextToken_total s) as [s0 H0].
    pose proof (proj2 (getNextToken_remaining _ _ _ H0) Hc) as L0.
    apply (ParseParenExpr_halts_after s s0 _ H0).
    apply (IH s0). lia. }
  (* ParsePrimary *)
  assert (HPr : forall s, (remaining s < S m)%nat -> halts ParsePrimary s).
  { intros s Hs.
    destruct (Z.eqb_spec (CurTok s) tok_identifier) as [E1|N1].
    { destruct (HI s Hs) as (n & r & Hn). exists (S n), r.
      rewrite ParsePrimary_S. unfold bind, get. rewrite E1. exact Hn. }
    apply Z.eqb_neq in N1.
    destruct (Z.eqb_spec (CurTok s) tok_number) as [E2|N2].
    { exists 1%nat. rewrite ParsePrimary_S. unfold bind at 1, get.
      rewrite N1, E2. cbv iota. change (tok_number =? tok_number) with true.
      cbv iota. unfold ParseNumberExpr. unfold bind at 1, get.
      destruct (getNextToken_total s) as [s0 H0].
      rewrite (bind_eq _ _ _ _ _ H0). unfold ret. eauto. }
    apply Z.eqb_neq in N2.
    destruct (Z.eqb_spec (CurTok s) (chr "(")) as [E3|N3].
    { destruct (HP' s Hs) as (n & r & Hn); [rewrite E3; discriminate|].
      exists (S n), r. rewrite ParsePrimary_S. unfold bind, get.
      rewrite N1, N2, E3. exact Hn. }
    apply Z.eqb_neq in N3.
    exists 1%nat. rewrite ParsePrimary_S. unfold bind, get.
    rewrite N1, N2, N3. unfold LogError. eauto. }
  (* ParseBinOpRHS *)
  assert (HB : forall s, (remaining s < S m)%nat ->
                 forall ExprPrec LHS, halts (fun n => ParseBinOpRHS n ExprPrec LHS) s).
  { intros s Hs p L.
    destruct (GetTokPrecedence_total s) as (TokPrec & s1 & H1).
    destruct (GetTokPrecedence_remaining _ _ _ H1) as [R1 _].
    destruct (TokPrec <? p) eqn:Elt.
    { exists 1%nat. rewrite ParseBinOpRHS_S, (bind_eq _ _ _ _ _ H1), Elt.
      unfold ret. eauto. }
    destruct (getNextToken_total s1) as [s2 H2].
    pose proof (proj1 (getNextToken_remaining _ _ _ H2)) as L2.
    destruct (HPr s2 ltac:(lia)) as (n1 & [r s3] & H3).
    destruct r as [RHS|].
    - pose proof (ParsePrimary_strict _ _ _ _ H3) as L3.
      destruct (GetTokPrecedence_total s3) as (NextPrec & s4 & H4).
      destruct (GetTokPrecedence_remaining _ _ _ H4) as [R4 _].
      destruct (IH s4 ltac:(lia)) as (_ & _ & _ & _ & _ & HB4).
      destruct (HB4 p (BinaryExprAST (to_char (CurTok s1)) L RHS)) as (n2 & r' & H5).
      exists (S (Nat.max n1 n2)), r'.
      rewrite ParseBinOpRHS_S, (bind_eq _ _ _ _ _ H1), Elt.
      unfold bind at 1, get. rewrite (bind_eq _ _ _ _ _ H2).
      rewrite (bind_eq _ _ _ _ _ (ParsePrimary_le n1 _ _ _ H3 (Nat.le_max_l _ _))).
      rewrite (bind_eq _ _ _ _ _ H4).
      apply (ParseBinOpRHS_le n2); [exact H5|lia].
    - exists (S n1). rewrite ParseBinOpRHS_S, (bind_eq _ _ _ _ _ H1), Elt.
      unfold bind at 1, get. rewrite (bind_eq _ _ _ _ _ H2).
      rewrite (bind_eq _ _ _ _ _ H3). unfold ret. eauto. }
  (* ParseExpression *)
  assert (HE : forall s, (remaining s < S m)%nat -> halts ParseExpression s).
  { intros s Hs. destruct (HPr s Hs) as (n1 & [r s1] & H1).
    destruct r as [LHS|].
    - pose proof (proj1 (Parse_shrinks n1) _ _ _ H1) as L1.
      destruct (HB s1 ltac:(lia) 0 LHS) as (n2 & r' & H2).
      exists (S (Nat.max n1 n2)), r'. rewrite ParseExpression_S.
      rewrite (bind_eq _ _ _ _ _ (ParsePrimary_le n1 _ _ _ H1 (Nat.le_max_l _ _))).
      apply (ParseBinOpRHS_le n2); [exact H2|lia].
    - exists (S n1). rewrite ParseExpression_S, (bind_eq _ _ _ _ _ H1).
      unfold ret. eauto. }
  (* ParseArgs *)
  assert (HA : forall s, (remaining s < S m)%nat ->
                 forall Args, halts (fun n => ParseArgs n Args) s).
  { intros s Hs Acc. destruct (HE s Hs) as (n1 & [r s1] & H1).
    destruct r as [Arg|].
    - pose proof (proj1 (proj2 (proj2 (proj2 (proj2 (Parse_shrinks n1))))) _ _ _ H1) as L1.
      destruct (Z.eqb_spec (CurTok s1) (chr ")")) as [Ec|Nc].
      { exists (S n1). rewrite (ParseArgs_after_argument n1 Acc s Arg s1 H1).
        rewrite Ec. change (chr ")" =? chr ")") with true. eauto. }
      apply Z.eqb_neq in Nc.
      destruct (Z.eqb_spec (CurTok s1) (chr ",")) as [Em|Nm].
      + destruct (getNextToken_total s1) as [s2 H2].
        assert (L2 : (remaining s2 < remaining s1)%nat).
        { apply (getNextToken_remaining _ _ _ H2). rewrite Em. discriminate. }
        destruct (IH s2 ltac:(lia)) as (_ & _ & _ & HA2 & _ & _).
        destruct (HA2 (Acc ++ [Arg])) as (n2 & r' & H3).
        exists (S (Nat.max n1 n2)), r'.
        rewrite (ParseArgs_after_argument _ Acc s Arg s1
                   (ParseExpression_le n1 _ _ _ H1 (Nat.le_max_l _ _))).
        rewrite Nc. apply Z.eqb_eq in Em. rewrite Em. cbn [negb].
        rewrite (bind_eq _ _ _ _ _ H2).
        apply (ParseArgs_le n2); [exact H3|lia].
      + exists (S n1). rewrite (ParseArgs_after_argument n1 Acc s Arg s1 H1).
        rewrite Nc. apply Z.eqb_neq in Nm. rewrite Nm. cbn [negb]. eauto.
    - exists (S n1). rewrite ParseArgs_S, (bind_eq _ _ _ _ _ H1).
      unfold ret. eauto. }
  (* ParseParenExpr in any state *)
  intros s Hs. repeat apply conj; auto.
  destruct (getNextToken_total s) as [s0 H0].
  pose proof (proj1 (getNextToken_remaining _ _ _ H0)) as L0.
  apply (ParseParenExpr_halts_after s s0 _ H0). apply HE. lia.
Qed.

(** X13: the parser terminates: from every state, each parse function
    returns -- a tree or [nullptr] -- once it is given enough fuel for the
    depth of its calls.  (The input is finite, every round of a loop and every
    nested call reads a token first, and at the end of input [ParsePrimary]
    fails.) *)
Theorem parser_terminates (s : State) :
  (exists n r, ParseExpression n s = Some r)
  /\ (exists n r, ParsePrimary n s = Some r)
  /\ (exists n r, ParseParenExpr n s = Some r)
  /\ (exists n r, ParseIdentifierExpr n s = Some r)
  /\ (forall ExprPrec LHS, exists n r, ParseBinOpRHS n ExprPrec LHS s = Some r).
Proof.
  destruct (Parse_halts_below (S (remaining s)) s (Nat.lt_succ_diag_r _))
    as (H1 & H2 & H3 & H4 & H5 & H6).
  repeat apply conj; [exact H5|exact H1|exact H2|exact H3|exact H6].
Qed.

(** ** No expression *)

Lemma ParsePrimary_unknown (n : nat) (s : State) :
  CurTok s <> tok_identifier -> CurTok s <> tok_number -> CurTok s <> chr "(" ->
  ParsePrimary (S n) s =
  Some (None, logged "Unknown Token! Expected an expression" s).
Proof.
  intros N1 N2 N3. rewrite ParsePrimary_S. unfold bind, get.
  apply Z.eqb_neq in N1, N2, N3. now rewrite N1, N2, N3.
Qed.

(** X14: where no expression starts -- the current token is not an
    identifier, a number or ['('] -- [ParseExpression] fails with "Unknown
    Token! Expected an expression" without reading a token; and that is the
    only way it returns without reading one.  In particular a text of nothing
    but white space and comments, the empty text included, gives this error
    and no tree. *)
Theorem ParseExpression_unknown_token :
  (forall (n : nat) (s : State),
      CurTok s <> tok_identifier -> CurTok s <> tok_number ->
      CurTok s <> chr "(" ->
      ParseExpression (S (S n)) s =
      Some (None, logged "Unknown Token! Expected an expression" s))
  /\ (forall (n : nat) (s : State) (r : option ExprAST) (s' : State),
        ParseExpression n s = Some (r, s') -> remaining s' = remaining s ->
        r = None /\ s' = logged "Unknown Token! Expected an expression" s)
  /\ (forall (n : nat) (s : State) (tr : list ascii),
        trivia tr ->
        (getNextToken ;;; ParseExpression (S (S n))) (with_pending s tr) =
        Some (None, logged "Unknown Token! Expected an expression"
                      (set_CurTok (with_pending s []) tok_eof))).
Proof.
  split; [|split].
  - intros n s N1 N2 N3. rewrite ParseExpression_S.
    now rewrite (bind_eq _ _ _ _ _ (ParsePrimary_unknown n s N1 N2 N3)).
  - intros n s r s' H Hrem.
    destruct n as [|n]; [discriminate|]. rewrite ParseExpression_S in H.
    unfold bind in H.
    destruct (ParsePrimary n s) as [[[LHS|] s1]|] eqn:E; try discriminate.
    { pose proof (ParsePrimary_strict _ _ _ _ E).
      pose proof (proj2 (proj2 (proj2 (proj2 (proj2 (Parse_shrinks n))))) 0 LHS _ _ _ H).
      lia. }
    injection H as <- <-. split; [reflexivity|].
    destruct n as [|n]; [discriminate|].
    destruct (Parse_shrinks n) as (S1 & S2 & S3 & S4 & S5 & S6).
    rewrite ParsePrimary_S in E. unfold bind at 1, get in E.
    destruct (Z.eqb_spec (CurTok s) tok_identifier) as [E1|_].
    { exfalso. destruct n as [|n]; [discriminate|].
      rewrite ParseIdentifierExpr_S in E. unfold bind at 1, get in E.
      destruct (Parse_shrinks n) as (_ & _ & _ & T4 & _ & _).
      assert ((remaining s1 < remaining s)%nat); [|lia].
      revert E. apply strict_after_getNextToken; [repeat shrinks_step|].
      rewrite E1. discriminate. }
    destruct (Z.eqb_spec (CurTok s) tok_number) as [E2|_].
    { exfalso. unfold ParseNumberExpr in E. unfold bind at 1, get in E.
      assert ((remaining s1 < remaining s)%nat); [|lia].
      revert E. apply strict_after_getNextToken; [repeat shrinks_step|].
      rewrite E2. discriminate. }
    destruct (Z.eqb_spec (CurTok s) (chr "(")) as [E3|_].
    { exfalso. destruct n as [|n]; [discriminate|].
      rewrite ParseParenExpr_S in E.
      destruct (Parse_shrinks n) as (_ & _ & _ & _ & T5 & _).
      assert ((remaining s1 < remaining s)%nat); [|lia].
      revert E. apply strict_after_getNextToken; [repeat shrinks_step|].
      rewrite E3. discriminate. }
    unfold LogError in E. now injection E as <-.
  - intros n s tr Htr. unfold bind at 1, getNextToken.
    rewrite (gettok_all_trivia s tr Htr).
    rewrite ParseExpression_S.
    assert (H : ParsePrimary (S n) (set_CurTok (with_pending s []) tok_eof) =
                Some (None, logged "Unknown Token! Expected an expression"
                              (set_CurTok (with_pending s []) tok_eof)))
      by (apply ParsePrimary_unknown; discriminate).
    now rewrite (bind_eq _ _ _ _ _ H).
Qed.

End Kaleidoscope.

(** * Closed instances *)

Arguments NumberExprAST {double}.
Arguments VariableExprAST {double}.
Arguments BinaryExprAST {double}.
Arguments CallExprAST {double}.
Arguments stdin {double}.
Arguments LastChar {double}.
Arguments IdentifierStr {double}.
Arguments NumVal {double}.
Arguments CurTok {double}.
Arguments BinopPrecedence {double}.
Arguments stderr {double}.
Arguments set_CurTok {double}.
Arguments set_NumVal {double}.
Arguments initial {double}.
Arguments main {double}.
Arguments gettok_fuel {double}.
Arguments gettok {double}.
Arguments getNextToken {double}.
Arguments GetTokPrecedence {double}.
Arguments ParseParenExpr {double}.
Arguments ParseIdentifierExpr {double}.
Arguments ParseExpression {double}.
Arguments ParseBinOpRHS {double}.
Arguments parse_text {double}.
Arguments with_pending {double}.
Arguments lex_trace {double}.
Arguments token_boundary {double}.
Arguments state_after {double A}.
Arguments at_first_token {double}.
Arguments after_first_primary {double}.
Arguments runs {double A}.
Arguments logged {double}.
Arguments op_getNextToken {double}.
Arguments op_ParseExpression {double}.
Arguments run_operations {double}.
Arguments operator_chain {double}.
Arguments argument_list {double}.
Arguments set_IdentifierStr {double}.
Arguments ParsePrimary {double}.
Arguments gettok_iter {double}.
Arguments lexer_size {double}.
Arguments remaining {double}.

(** The statements above, applied to concrete inputs in the instance
    [text_double]. *)



(** The chain "-2-3" after the primary "1". *)
Lemma equal_precedence_left_associative_witness :
  exists chain s',
    operator_chain text_strtod 0
      (after_first_primary text_strtod text_zero 2 "1-2-3") chain s'
    /\ Forall (fun x => snd (fst x) = 30) chain
    /\ runs (fun n => ParseBinOpRHS text_strtod n 0 (NumberExprAST "1"%string))
         (after_first_primary text_strtod text_zero 2 "1-2-3")
         (Some (BinaryExprAST "-"
                  (BinaryExprAST "-" (NumberExprAST "1"%string)
                                       (NumberExprAST "2"%string))
                  (NumberExprAST "3"%string)), s').
Proof.
  eexists. eexists.
  match goal with |- ?A /\ _ => assert (Hc : A) end.
  { eapply chain_step;
      [vm_compute; reflexivity|lia|vm_compute; reflexivity
      |exists 2%nat; vm_compute; reflexivity|vm_compute; reflexivity|].
    eapply chain_step;
      [vm_compute; reflexivity|lia|vm_compute; reflexivity
      |exists 2%nat; vm_compute; reflexivity|vm_compute; reflexivity|].
    eapply chain_end; [vm_compute; reflexivity|lia]. }
  assert (Hp : Forall (fun x : ascii * Z * ExprAST text_double => snd (fst x) = 30)
                 [("-"%char, 30, NumberExprAST "2"%string);
                  ("-"%char, 30, NumberExprAST "3"%string)]).
  { repeat constructor. }
  split; [exact Hc|]. split; [exact Hp|].
  exact (proj1 (equal_precedence_left_associative _ text_strtod text_zero)
           _ _ _ _ _ (NumberExprAST "1"%string) Hc Hp).
Defined.

(** The look-up of ['<'] in the table of [main]. *)
Lemma GetTokPrecedence_and_loop_exit_witness :
  option_map fst
    (GetTokPrecedence
       (set_CurTok (main (initial text_zero [])) (chr "<"))) = Some 10.
Proof.
  apply (proj1 (GetTokPrecedence_and_loop_exit text_double text_strtod text_zero)).
  - intros k. reflexivity.
  - reflexivity.
Defined.

(** "(1+2": after the inner expression the current token is [tok_eof]. *)
Lemma ParseParenExpr_closing_paren_witness :
  exists s1,
    CurTok s1 <> chr ")"
    /\ ParseParenExpr text_strtod 9 (at_first_token text_strtod text_zero "(1+2") =
       Some (None, logged "Expected ')'" s1).
Proof.
  pose (s := at_first_token text_strtod text_zero "(1+2").
  pose (s0 := state_after (getNextToken text_strtod s) s).
  pose (s1 := state_after (ParseExpression text_strtod 8 s0) s).
  assert (H0 : getNextToken text_strtod s = Some (tok_number, s0))
    by (vm_compute; reflexivity).
  assert (H1 : ParseExpression text_strtod 8 s0 =
               Some (Some (BinaryExprAST "+" (NumberExprAST "1"%string)
                             (NumberExprAST "2"%string)), s1))
    by (vm_compute; reflexivity).
  assert (Hne : CurTok s1 <> chr ")") by (vm_compute; discriminate).
  exists s1. split; [exact Hne|].
  exact (proj1 (proj1 (ParseParenExpr_closing_paren text_double text_strtod text_zero)
                  8%nat s tok_number s0 _ s1 H0 H1) Hne).
Defined.

(** The call "fn(1,2)"; [IdentifierStr] holds "n" when the identifier has
    been read. *)
Lemma ParseIdentifierExpr_variable_or_call_witness :
  exists s'',
    runs (ParseIdentifierExpr text_strtod)
      (at_first_token text_strtod text_zero "fn(1,2)")
      (Some (CallExprAST "n" [NumberExprAST "1"%string; NumberExprAST "2"%string]),
       s'').
Proof.
  pose (s := at_first_token text_strtod text_zero "fn(1,2)").
  pose (s0 := state_after (getNextToken text_strtod s) s).
  pose (s1 := state_after (getNextToken text_strtod s0) s).
  pose (a1 := state_after (ParseExpression text_strtod 3 s1) s).
  pose (s2 := state_after (getNextToken text_strtod a1) s).
  pose (a2 := state_after (ParseExpression text_strtod 3 s2) s).
  assert (H0 : getNextToken text_strtod s = Some (chr "(", s0))
    by (vm_compute; reflexivity).
  assert (Hp : CurTok s0 = chr "(") by (vm_compute; reflexivity).
  assert (H1 : getNextToken text_strtod s0 = Some (tok_number, s1))
    by (vm_compute; reflexivity).
  assert (Hc : CurTok s1 <> chr ")") by (vm_compute; discriminate).
  assert (Hargs : argument_list text_strtod s1
            [NumberExprAST "1"%string; NumberExprAST "2"%string] a2).
  { apply (arguments_more _ _ s1 _ a1 tok_number s2);
      [exists 3%nat; vm_compute; reflexivity|vm_compute; reflexivity
      |vm_compute; reflexivity|].
    apply arguments_last. exists 3%nat. vm_compute. reflexivity. }
  assert (Hclose : CurTok a2 = chr ")") by (vm_compute; reflexivity).
  destruct (proj1 (proj1 (proj2 (proj2
              (ParseIdentifierExpr_variable_or_call text_double text_strtod)))
              s (chr "(") s0 tok_number s1 _ a2 H0 Hp H1 Hc Hargs) Hclose)
    as (s'' & _ & Hr).
  exists s''. exact Hr.
Defined.

(** A comment between "1" and "+2". *)
Lemma comment_between_tokens_witness :
  token_boundary text_strtod (main (initial text_zero []))
    (list_ascii_of_string " 1") (list_ascii_of_string "+2")
  /\ (forall m,
        lex_trace text_strtod m
          (with_pending (main (initial text_zero []))
             (list_ascii_of_string " 1"
              ++ ("#"%char :: list_ascii_of_string " ignore me" ++ ["010"%char])
              ++ list_ascii_of_string "+2")) =
        lex_trace text_strtod m
          (with_pending (main (initial text_zero []))
             (list_ascii_of_string " 1" ++ list_ascii_of_string "+2"))).
Proof.
  assert (Hb : token_boundary text_strtod (main (initial text_zero []))
                 (list_ascii_of_string " 1") (list_ascii_of_string "+2")).
  { exists 1%nat. eexists. exists [].
    split; [vm_compute; reflexivity|]. split; [apply trivia_nil|].
    vm_compute. reflexivity. }
  split; [exact Hb|].
  exact (proj1 (proj1 (comment_between_tokens text_double text_strtod text_zero)
                  (main (initial text_zero []))
                  (list_ascii_of_string " 1") (list_ascii_of_string "+2")
                  (list_ascii_of_string " ignore me") "010"%char
                  eq_refl eq_refl Hb)).
Defined.

(** The input " #abc", which ends inside the comment. *)
Lemma comment_until_end_of_input_witness :
  gettok text_strtod
    (with_pending (initial text_zero []) (list_ascii_of_string " #abc")) =
  Some (tok_eof, with_pending (initial text_zero []) []).
Proof.
  apply (proj1 (comment_until_end_of_input text_double text_strtod
                  (initial text_zero []) [" "%char] (list_ascii_of_string "abc")
                  (trivia_space " " [] eq_refl trivia_nil) eq_refl)).
Defined.

(** A lone ".". *)
Lemma number_token_witness :
  gettok text_strtod (with_pending (initial text_zero []) ["."%char]) =
  Some (tok_number,
        set_NumVal (with_pending (initial text_zero []) []) (text_strtod ".")).
Proof.
  apply (number_token text_double text_strtod (initial text_zero []) []
           "."%char [] [] trivia_nil eq_refl eq_refl eq_refl).
Defined.

(** ** The lexer *)

(** The identifier of "x+1". *)
Lemma gettok_consumes_witness :
  exists s',
    gettok text_strtod
      (with_pending (initial text_zero []) (list_ascii_of_string "x+1")) =
    Some (tok_identifier, s')
    /\ (lexer_size s' <
        lexer_size (with_pending (initial text_zero []) (list_ascii_of_string "x+1")))%nat.
Proof.
  pose (s := with_pending (initial text_zero []) (list_ascii_of_string "x+1")).
  pose (s' := state_after (gettok text_strtod s) s).
  assert (H : gettok text_strtod s = Some (tok_identifier, s'))
    by (vm_compute; reflexivity).
  exists s'. split; [exact H|].
  apply (gettok_consumes text_double text_strtod s tok_identifier s' H).
  discriminate.
Defined.

(** The end of input after " #c". *)
Lemma gettok_eof_is_final_witness :
  exists s',
    gettok text_strtod
      (with_pending (initial text_zero []) (list_ascii_of_string " #c")) =
    Some (tok_eof, s')
    /\ LastChar s' = EOF
    /\ gettok text_strtod s' = Some (tok_eof, s')
    /\ (forall k, gettok_iter text_strtod k s' = Some s').
Proof.
  pose (s := with_pending (initial text_zero []) (list_ascii_of_string " #c")).
  pose (s' := state_after (gettok text_strtod s) s).
  assert (H : gettok text_strtod s = Some (tok_eof, s'))
    by (vm_compute; reflexivity).
  exists s'. split; [exact H|].
  exact (gettok_eof_is_final text_double text_strtod s s' H).
Defined.

(** The token of "+" is the code of ['+']. *)
Lemma gettok_token_kinds_witness :
  exists s',
    gettok text_strtod (with_pending (initial text_zero []) ["+"%char]) =
    Some (chr "+", s')
    /\ (chr "+" = tok_eof \/ chr "+" = tok_def \/ chr "+" = tok_extern
        \/ chr "+" = tok_identifier \/ chr "+" = tok_number
        \/ exists c, chr "+" = chr c /\ other_char c = true).
Proof.
  pose (s' := state_after
                (gettok text_strtod (with_pending (initial text_zero []) ["+"%char]))
                (initial text_zero [])).
  assert (H : gettok text_strtod (with_pending (initial text_zero []) ["+"%char]) =
              Some (chr "+", s'))
    by (vm_compute; reflexivity).
  exists s'. split; [exact H|].
  exact (gettok_token_kinds text_double text_strtod (initial text_zero [])
           ["+"%char] (chr "+") s' H).
Defined.

(** The identifier of " ab1 ": the text kept is "b1". *)
Lemma gettok_identifier_witness :
  gettok text_strtod
    (with_pending (initial text_zero []) (list_ascii_of_string " ab1 ")) =
  Some (identifier_token (IdentifierStr (initial text_zero []) ++ "b1"),
        set_IdentifierStr (with_pending (initial text_zero []) [" "%char])
          (IdentifierStr (initial text_zero []) ++ "b1")).
Proof.
  apply (gettok_identifier text_double text_strtod (initial text_zero [])
           [" "%char] "a"%char ["b"%char; "1"%char] [" "%char]
           (trivia_space " " [] eq_refl trivia_nil) eq_refl eq_refl eq_refl).
Defined.

(** The ['+'] of " +1". *)
Lemma gettok_character_witness :
  gettok text_strtod
    (with_pending (initial text_zero []) (list_ascii_of_string " +1")) =
  Some (chr "+", with_pending (initial text_zero []) ["1"%char])
  /\ 0 <= chr "+" < 256.
Proof.
  apply (gettok_character text_double text_strtod (initial text_zero [])
           [" "%char] "+"%char ["1"%char]
           (trivia_space " " [] eq_refl trivia_nil) eq_refl).
Defined.

(** A blank and a comment line in front of "x". *)
Lemma gettok_skips_trivia_witness :
  gettok text_strtod
    (with_pending (initial text_zero [])
       (" "%char :: "#"%char :: list_ascii_of_string "c" ++ "010"%char :: ["x"%char])) =
  gettok text_strtod (with_pending (initial text_zero []) ["x"%char]).
Proof.
  apply (gettok_skips_trivia text_double text_strtod (initial text_zero [])
           (" "%char :: "#"%char :: list_ascii_of_string "c" ++ ["010"%char])
           ["x"%char]
           (trivia_space " " _ eq_refl
              (trivia_comment (list_ascii_of_string "c") "010" [] eq_refl eq_refl
                 trivia_nil))).
Defined.

(** Reading "+" in the state that [main] prepared. *)
Lemma gettok_frame_witness :
  exists s',
    gettok text_strtod (with_pending (main (initial text_zero [])) ["+"%char]) =
    Some (chr "+", s')
    /\ CurTok s' = CurTok (main (initial text_zero []))
    /\ BinopPrecedence s' = BinopPrecedence (main (initial text_zero []))
    /\ stderr s' = stderr (main (initial text_zero []))
    /\ NumVal s' = NumVal (main (initial text_zero []))
    /\ IdentifierStr s' = IdentifierStr (main (initial text_zero [])).
Proof.
  pose (s := with_pending (main (initial text_zero [])) ["+"%char]).
  pose (s' := state_after (gettok text_strtod s) s).
  assert (H : gettok text_strtod s = Some (chr "+", s'))
    by (vm_compute; reflexivity).
  exists s'. split; [exact H|].
  destruct (gettok_frame text_double text_strtod s (chr "+") s' H)
    as (H1 & H2 & H3 & H4 & H5).
  repeat apply conj; [exact H1|exact H2|exact H3|apply H4|apply H5]; discriminate.
Defined.

(** ** The parser *)

(** The look-up of [')'], which has no entry in the table of [main]. *)
Lemma GetTokPrecedence_again_witness :
  exists s1,
    GetTokPrecedence (set_CurTok (main (initial text_zero [])) (chr ")")) =
    Some (-1, s1)
    /\ (-1 = -1 \/ 0 < -1)
    /\ CurTok s1 = chr ")"
    /\ GetTokPrecedence s1 = Some (-1, s1).
Proof.
  pose (s := set_CurTok (main (initial text_zero [])) (chr ")")).
  pose (s1 := state_after (GetTokPrecedence s) s).
  assert (H : GetTokPrecedence s = Some (-1, s1)) by (vm_compute; reflexivity).
  exists s1. split; [exact H|].
  exact (GetTokPrecedence_again text_double s (-1) s1 H).
Defined.

(** "(1" lacks its [')']: one line on stderr. *)
Lemma parse_reports_one_error_witness :
  exists s' Str,
    ParseExpression text_strtod 9 (at_first_token text_strtod text_zero "(1") =
    Some (None, s')
    /\ (Str = "Unknown Token! Expected an expression"%string
        \/ Str = "Expected ')'"%string
        \/ Str = "Expected ')' or ',' in argument list"%string)
    /\ stderr s' =
       stderr (at_first_token text_strtod text_zero "(1")
       ++ [("Error: " ++ Str ++ String "010" EmptyString)%string].
Proof.
  pose (s := at_first_token text_strtod text_zero "(1").
  pose (s' := state_after (ParseExpression text_strtod 9 s) s).
  assert (H : ParseExpression text_strtod 9 s = Some (None, s'))
    by (vm_compute; reflexivity).
  destruct (parse_reports_one_error text_double text_strtod 9%nat s None s'
              (or_introl H)) as (Str & HStr & Herr).
  exists s', Str. split; [exact H|]. split; [exact HStr|exact Herr].
Defined.

(** The parse of "1+2" consumes input. *)
Lemma ParseExpression_consumes_witness :
  exists s',
    ParseExpression text_strtod 9 (at_first_token text_strtod text_zero "1+2") =
    Some (Some (BinaryExprAST "+" (NumberExprAST "1"%string)
                  (NumberExprAST "2"%string)), s')
    /\ (remaining s' < remaining (at_first_token text_strtod text_zero "1+2"))%nat.
Proof.
  pose (s := at_first_token text_strtod text_zero "1+2").
  pose (s' := state_after (ParseExpression text_strtod 9 s) s).
  assert (H : ParseExpression text_strtod 9 s =
              Some (Some (BinaryExprAST "+" (NumberExprAST "1"%string)
                            (NumberExprAST "2"%string)), s'))
    by (vm_compute; reflexivity).
  exists s'. split; [exact H|].
  apply (proj2 (ParseExpression_consumes text_double text_strtod 9%nat s _ s' H)).
  discriminate.
Defined.

(** The text ")": no expression starts at [')']. *)
Lemma ParseExpression_unknown_token_witness :
  ParseExpression text_strtod 2 (at_first_token text_strtod text_zero ")") =
  Some (None, logged "Unknown Token! Expected an expression"
                (at_first_token text_strtod text_zero ")")).
Proof.
  apply (proj1 (ParseExpression_unknown_token text_double text_strtod) 0%nat
           (at_first_token text_strtod text_zero ")")).
  - vm_compute. discriminate.
  - vm_compute. discriminate.
  - vm_compute. discriminate.
Defined.
